(** * Doc_Test_Project: the SYCL vector class and the matrix operations

    A shallow embedding of [Basic_Sycl_Vector] (the pybind11 module
    [sycl_vector]) and of [Matrix_Operations/operations.h].

    Conventions of the embedding.
    - [double] is IEEE 754 binary64: Rocq's primitive [float], with the
      operations rounded to nearest, ties to even.  NaN is one value: the
      sign and the payload of a NaN, which IEEE 754 leaves open, are not
      represented.  Equality of vectors is equality of values, with [+0]
      and [-0] distinct.
    - A [parallel_for] over a range runs its work items one after the other,
      in increasing index order, on the store that the accessors denote.
    - A [sycl::buffer] built over a host vector holds that vector's
      contents for the lifetime of the scope and is written back when the
      scope closes.  For a kernel that works through the accessor this is
      the same whether the buffer shares the vector's storage or keeps a
      copy of it.  [reset] writes the host vector itself, not the accessor:
      there the two differ, and the platform says which one the runtime
      does.
    - What a call throws is part of what [invoke] returns, beside the
      instance the call leaves.
    - What C++ leaves undefined (an access past the end of a vector or of a
      buffer, a signed loop counter that overflows) is an explicit
      [Undefined] outcome, never a value.
    - The accessors of the matrix kernels are read as two-dimensional, as
      the way the kernels index them requires. *)

From Stdlib Require Import Floats Uint63 ZArith Lia String.
From stdpp Require Import base list.

(** ** Outcomes *)

Inductive fault : Set :=
  | index_out_of_range
  | buffer_exceeds_storage
  | signed_overflow.

Inductive outcome (T : Type) : Type :=
  | Returns (v : T)
  | Undefined (f : fault).
Arguments Returns {T} v.
Arguments Undefined {T} f.

Definition INT_MAX : Z := 2147483647.

#[global] Instance outcome_ret : MRet outcome := fun _ v => Returns v.
#[global] Instance outcome_bind : MBind outcome := fun _ _ k m =>
  match m with
  | Returns v => k v
  | Undefined f => Undefined f
  end.

(** ** The part of the SYCL runtime the code relies on *)

Module Sycl.

Record device : Set := { name : string; vendor : string }.

Record queue : Set := { get_device : device }.

(** Where a buffer built over a host vector keeps its cells: in the
    vector's own storage, or in a copy taken when the buffer is built and
    written back over the vector when the buffer goes. *)
Inductive storage : Set := shares_host | keeps_copy.

(** What the host offers: the device of a default-constructed queue, the
    device [gpu_selector_v] picks if there is one, and the way the runtime
    stores its buffers. *)
Record platform : Set := {
  default_selector_v : device;
  gpu_selector_v : option device;
  buffer_storage : storage
}.

Inductive exception : Set := no_matching_device.

(** Work items of one dispatch, run in order on the store [s]. *)
Fixpoint run_items {I S : Type} (kernel : I → S → outcome S)
    (items : list I) (s : S) : outcome S :=
  match items with
  | [] => Returns s
  | idx :: rest => s' ← kernel idx s; run_items kernel rest s'
  end.

(** [h.parallel_for(range, kernel)] over a one-dimensional range. *)
Definition parallel_for {S : Type} (range : nat)
    (kernel : nat → S → outcome S) (s : S) : outcome S :=
  run_items kernel (seq 0 range) s.

(** [h.parallel_for(sycl::range{R, C}, kernel)]: ids in row-major order. *)
Definition parallel_for_2 {S : Type} (range : nat * nat)
    (kernel : nat * nat → S → outcome S) (s : S) : outcome S :=
  run_items kernel
    (i ← seq 0 range.1; j ← seq 0 range.2; [(i, j)]) s.

End Sycl.

(** A host with a CPU only, one with a GPU next to it, and a host with a
    CPU only whose runtime keeps its buffers in copies. *)
Definition cpu_only : Sycl.platform :=
  {| Sycl.default_selector_v := {| Sycl.name := "cpu"; Sycl.vendor := "host" |};
     Sycl.gpu_selector_v := None;
     Sycl.buffer_storage := Sycl.shares_host |}.

Definition cpu_and_gpu : Sycl.platform :=
  {| Sycl.default_selector_v := {| Sycl.name := "cpu"; Sycl.vendor := "host" |};
     Sycl.gpu_selector_v := Some {| Sycl.name := "gpu"; Sycl.vendor := "card" |};
     Sycl.buffer_storage := Sycl.shares_host |}.

Definition cpu_copying : Sycl.platform :=
  {| Sycl.default_selector_v := {| Sycl.name := "cpu"; Sycl.vendor := "host" |};
     Sycl.gpu_selector_v := None;
     Sycl.buffer_storage := Sycl.keeps_copy |}.

(** ** Unchecked element access ([operator[]] of a vector or accessor) *)

Section Element_access.
Context {T : Type}.

Definition load (i : nat) (v : list T) : outcome T :=
  match v !! i with
  | Some a => Returns a
  | None => Undefined index_out_of_range
  end.

Definition store (i : nat) (a : T) (v : list T) : outcome (list T) :=
  if decide (i < length v) then Returns (<[i := a]> v)
  else Undefined index_out_of_range.

End Element_access.

(** ** class Basic_Sycl_Vector *)

Module Basic_Sycl_Vector.

Record t : Set := {
  Q : Sycl.queue;      (* selected device *)
  SIZE : nat;          (* size_t *)
  A : list float       (* std::vector<double> *)
}.

(** The constructor's loop: [n] more rounds of [A.push_back(0.0)]. *)
Fixpoint push_back_zeros (n : nat) (A : list float) : list float :=
  match n with
  | O => A
  | S n' => push_back_zeros n' (A ++ [0%float])
  end.

(** [Basic_Sycl_Vector(int SIZE_in)].  [SIZE_in] is an [int]; a negative
    one becomes a [size_t] beyond every [int], so the counter [i]
    overflows before the loop ends. *)
Definition construct (P : Sycl.platform) (SIZE_in : Z) : outcome t :=
  if (SIZE_in <? 0)%Z then Undefined signed_overflow
  else
    let SIZE := Z.to_nat SIZE_in in
    Returns {| Q := {| Sycl.get_device := Sycl.default_selector_v P |};
               SIZE := SIZE;
               A := push_back_zeros SIZE [] |}.

Definition endl : string := String (Ascii.ascii_of_nat 10) EmptyString.

Definition print_device (this : t) : string :=
  ("DEVICE: " ++ Sycl.name (Sycl.get_device (Q this)) ++
   endl ++ "VENDOR: " ++ Sycl.vendor (Sycl.get_device (Q this)) ++
   endl ++ endl)%string.

(** [select_gpu_device]: the queue it builds is a local of the same name
    as the member. Building it throws when no GPU is present. *)
Definition select_gpu_device (P : Sycl.platform) (this : t)
    : t * option Sycl.exception :=
  match Sycl.gpu_selector_v P with
  | Some d =>
      let Q := {| Sycl.get_device := d |} in
      (this, None)
  | None => (this, Some Sycl.no_matching_device)
  end.

(** The body of a scalar method: a buffer over [A], one dispatch of [SIZE]
    work items that go through the accessor, write-back. *)
Definition submit (kernel : nat → list float → outcome (list float))
    (this : t) : outcome t :=
  let A_buffer := A this in
  A' ← Sycl.parallel_for (SIZE this) kernel A_buffer;
  Returns {| Q := Q this; SIZE := SIZE this; A := A' |}.

(** [reset]: its kernel assigns the member [A] itself, reached through the
    captured [this]; the accessor it declares is not used.  When the scope
    closes, a buffer that shares the vector's storage leaves what the
    kernel wrote, and a buffer that keeps a copy writes the contents it
    took when it was built back over it. *)
Definition reset (P : Sycl.platform) (this : t) : outcome t :=
  let A_buffer := A this in
  A_host ← Sycl.parallel_for (SIZE this) (λ idx A,
    let i := 0 in
    store i 0%float A) (A this);
  Returns {| Q := Q this; SIZE := SIZE this;
             A := match Sycl.buffer_storage P with
                  | Sycl.shares_host => A_host
                  | Sycl.keeps_copy => A_buffer
                  end |}.

Definition add_each_element (x : float) (this : t) : outcome t :=
  submit (λ idx A_access,
    let i := 0 in
    a ← load i A_access; store i (a + x)%float A_access) this.

Definition subtract_each_element (x : float) (this : t) : outcome t :=
  submit (λ idx A_access,
    let i := 0 in
    a ← load i A_access; store i (a - x)%float A_access) this.

Definition multiply_each_element (x : float) (this : t) : outcome t :=
  submit (λ idx A_access,
    let i := 0 in
    a ← load i A_access; store i (a * x)%float A_access) this.

Definition divide_each_element (x : float) (this : t) : outcome t :=
  submit (λ idx A_access,
    let i := 0 in
    a ← load i A_access; store i (a / x)%float A_access) this.

Definition get_vector (this : t) : list float := A this.

(** *** The calls the binding table exposes

    A call acts on the instance it is made on: [invoke] gives the instance
    it leaves and what it throws, if it throws.  [print_device] and
    [get_vector] only read the instance. *)

Inductive call : Set :=
  | call_print_device
  | call_select_gpu_device
  | call_reset
  | call_add_each_element (x : float)
  | call_subtract_each_element (x : float)
  | call_multiply_each_element (x : float)
  | call_divide_each_element (x : float)
  | call_get_vector.

Definition invoke (P : Sycl.platform) (c : call) (this : t)
    : outcome (t * option Sycl.exception) :=
  match c with
  | call_print_device => Returns (this, None)
  | call_select_gpu_device => Returns (select_gpu_device P this)
  | call_reset => this' ← reset P this; Returns (this', None)
  | call_add_each_element x =>
      this' ← add_each_element x this; Returns (this', None)
  | call_subtract_each_element x =>
      this' ← subtract_each_element x this; Returns (this', None)
  | call_multiply_each_element x =>
      this' ← multiply_each_element x this; Returns (this', None)
  | call_divide_each_element x =>
      this' ← divide_each_element x this; Returns (this', None)
  | call_get_vector => Returns (this, None)
  end.

(** The instance once the call is over, whether it returned or threw. *)
Definition after_call (P : Sycl.platform) (c : call) (this : t)
    : outcome t :=
  r ← invoke P c this; Returns r.1.

(** A script against the binding: build an instance, then make the calls
    in order, catching what a call throws and going on.  The states an
    instance can be in are the results of sessions. *)
Definition session (P : Sycl.platform) (SIZE_in : Z) (calls : list call)
    : outcome t :=
  this ← construct P SIZE_in; Sycl.run_items (after_call P) calls this.

(** The four scalar methods differ in their compound assignment only. *)
Inductive scalar_op : Set :=
  | plus_assign | minus_assign | times_assign | divide_assign.

Definition compound_assign (op : scalar_op) (x a : float) : float :=
  match op with
  | plus_assign => (a + x)%float
  | minus_assign => (a - x)%float
  | times_assign => (a * x)%float
  | divide_assign => (a / x)%float
  end.

Definition each_element (op : scalar_op) (x : float) (this : t)
    : outcome t :=
  match op with
  | plus_assign => add_each_element x this
  | minus_assign => subtract_each_element x this
  | times_assign => multiply_each_element x this
  | divide_assign => divide_each_element x this
  end.

(** [f] applied to the first element, the others kept. *)
Definition on_element_0 (f : float → float) (v : list float) : list float :=
  match v with
  | [] => []
  | a :: rest => f a :: rest
  end.

(** The conversion of a [size_t] to [double]. *)
Definition double_of_size_t (n : nat) : float :=
  PrimFloat.of_uint63 (Uint63.of_Z (Z.of_nat n)).

(** Subtracting [x] gives [a] back after adding [x] to it: no rounding was
    lost on the way. *)
Definition exactly_undone (x a : float) : Prop :=
  ((a + x) - x)%float = a.

(** [method] returns normally on [this], keeps the queue and the size,
    replaces element 0 by [f] applied to it [SIZE] times in a row, and
    keeps every other element. *)
Definition rewrites_element_0 (f : float → float) (method : t → outcome t)
    (this : t) : Prop :=
  ∃ this',
    method this = Returns this' ∧
    Q this' = Q this ∧ SIZE this' = SIZE this ∧
    get_vector this' !! 0 = Nat.iter (SIZE this) f <$> get_vector this !! 0 ∧
    ∀ i, 1 ≤ i → get_vector this' !! i = get_vector this !! i.

(** What every session establishes: the data has [SIZE] elements, all but
    the first still at their initial [0.0]. *)
Definition consistent (this : t) : Prop :=
  length (A this) = SIZE this ∧
  tail (A this) = replicate (SIZE this - 1) 0%float.

End Basic_Sycl_Vector.

(** ** Matrix_Operations/operations.h *)

Module Matrix_Operations.
Section Scalar_type.

(** The template parameter [Scalar_type] with its value-initialised element
    and its [operator+]; the kernels use nothing else of it. *)
Context {Scalar_type : Type}.
Context (zero : Scalar_type) (plus : Scalar_type → Scalar_type → Scalar_type).

(** [sycl::buffer<Scalar_type, 2>]: a range and the cells it covers. *)
Record buffer : Type := { range : nat * nat; cells : list Scalar_type }.

(** [sycl::buffer<Scalar_type, 2> buf(host.data(), sycl::range<2>(R, C))]:
    the first [R * C] cells of the host vector, which must be there. *)
Definition make_buffer (host : list Scalar_type) (r : nat * nat)
    : outcome buffer :=
  if decide (r.1 * r.2 ≤ length host)
  then Returns {| range := r; cells := take (r.1 * r.2) host |}
  else Undefined buffer_exceeds_storage.

(** Leaving the SYCL scope copies the cells back over the host vector. *)
Definition write_back (b : buffer) (host : list Scalar_type)
    : list Scalar_type :=
  cells b ++ drop (length (cells b)) host.

(** Row-major position of a two-dimensional id inside the buffer's range. *)
Definition linear_id (b : buffer) (idx : nat * nat) : outcome nat :=
  if decide (idx.1 < (range b).1 ∧ idx.2 < (range b).2)
  then Returns (idx.1 * (range b).2 + idx.2)
  else Undefined index_out_of_range.

Definition read (b : buffer) (idx : nat * nat) : outcome Scalar_type :=
  n ← linear_id b idx; load n (cells b).

Definition write (b : buffer) (idx : nat * nat) (v : Scalar_type)
    : outcome buffer :=
  n ← linear_id b idx;
  c ← store n v (cells b);
  Returns {| range := range b; cells := c |}.

(** [for(int k = 0; k < N; ++k) body], with [N] a [size_t] and [k]
    compared as one: up to [INT_MAX] rounds the counter stays an [int];
    with a larger [N] it overflows after the round for [INT_MAX]. *)
Definition for_loop {S : Type} (N : nat) (body : nat → S → outcome S)
    (s : S) : outcome S :=
  if (Z.of_nat N <=? INT_MAX)%Z then Sycl.run_items body (seq 0 N) s
  else
    s' ← Sycl.run_items body (seq 0 (Z.to_nat (INT_MAX + 1))) s;
    Undefined signed_overflow.

Definition matrix_add (Q : Sycl.queue) (A B : list Scalar_type)
    (M N : nat) : outcome (list Scalar_type) :=
  let C := replicate N zero in
  A_buf ← make_buffer A (M, N);
  B_buf ← make_buffer B (M, N);
  C_buf ← make_buffer C (M, N);
  C_buf' ← Sycl.parallel_for_2 (M, N) (λ idx C_acc,
    a ← read A_buf idx;
    b ← read B_buf idx;
    write C_acc idx (plus a b)) C_buf;
  Returns (write_back C_buf' C).

(** In the kernel [i] and [j] are [int] copies of the two coordinates of
    the id.  A work item that runs to its end has a loop bound [N] within
    [int] and, the buffer of [C] fitting, coordinates below
    [M * K ≤ N]: the copies lose nothing where the call is defined. *)
Definition matrix_multiplication (Q : Sycl.queue) (A B : list Scalar_type)
    (M N K : nat) : outcome (list Scalar_type) :=
  let C := replicate N zero in
  A_buf ← make_buffer A (M, N);
  B_buf ← make_buffer B (N, K);
  C_buf ← make_buffer C (M, K);
  C_buf' ← Sycl.parallel_for_2 (M, K) (λ idx C_acc,
    let i := idx.1 in
    let j := idx.2 in
    for_loop N (λ k C_acc,
      c ← read C_acc (j, i);
      a ← read A_buf (j, k);
      b ← read B_buf (k, i);
      write C_acc (j, i) (plus c (plus a b))) C_acc) C_buf;
  Returns (write_back C_buf' C).

End Scalar_type.
End Matrix_Operations.

(** The instantiation at [double]. *)
Definition matrix_add_double :=
  Matrix_Operations.matrix_add 0%float PrimFloat.add.

Definition matrix_multiplication_double :=
  Matrix_Operations.matrix_multiplication 0%float PrimFloat.add.

(** ** What the kernels leave in a cell *)

Section Cells.
Context {Scalar_type : Type}.
Context (zero : Scalar_type) (plus : Scalar_type → Scalar_type → Scalar_type).

(** [X[i][j]] of a flattened row-major matrix with [cols] columns. *)
Definition entry (X : list Scalar_type) (cols i j : nat) : Scalar_type :=
  default zero (X !! (i * cols + j)).

(** What the loop over [k] of the multiplication kernel adds up for row [r]
    of [A] and column [c] of [B], starting from a value-initialised cell:
    the sums [A[r][k] + B[k][c]], in the order of the loop. *)
Definition accumulated (A B : list Scalar_type) (N K r c : nat)
    : Scalar_type :=
  foldl (λ acc k, plus acc (plus (entry A N r k) (entry B K k c)))
    zero (seq 0 N).

End Cells.

(** ** What the specification asks of the matrix operations

    These two follow the words of the specification, not the code: the
    lengths are checked first, [add] sums cell by cell, and [multiply] is
    the row-by-column product over flattened row-major matrices. *)

Module Spec.

Inductive error : Set := DimensionMismatch.

Definition cell (X : list float) (cols i j : nat) : float :=
  default 0%float (X !! (i * cols + j)).

Definition add (A B : list float) (M N : nat) : error + list float :=
  if decide (length A = M * N ∧ length B = M * N)
  then inr (i ← seq 0 M; j ← seq 0 N; [(cell A N i j + cell B N i j)%float])
  else inl DimensionMismatch.

Definition multiply (A B : list float) (M N K : nat) : error + list float :=
  if decide (length A = M * N ∧ length B = N * K)
  then inr (i ← seq 0 M; j ← seq 0 K;
            [foldl (λ acc k, (acc + cell A N i k * cell B K k j)%float)
               0%float (seq 0 N)])
  else inl DimensionMismatch.

End Spec.

(** * Properties of the vector class *)

Section Vector_lemmas.
Import Basic_Sycl_Vector.

Lemma push_back_zeros_replicate n l :
  push_back_zeros n l = l ++ replicate n 0%float.
Proof.
  revert l; induction n as [|n IH]; intros l; simpl.
  - by rewrite app_nil_r.
  - rewrite IH, <- app_assoc. reflexivity.
Qed.

(** A dispatch whose every work item rewrites element 0 by [f]. *)
Lemma run_items_element_0 {I : Type} (f : float → float)
    (kernel : I → list float → outcome (list float)) :
  (∀ idx a rest, kernel idx (a :: rest) = Returns (f a :: rest)) →
  ∀ items a rest,
    Sycl.run_items kernel items (a :: rest)
    = Returns (Nat.iter (length items) f a :: rest).
Proof.
  intros Hk items; induction items as [|idx items IH]; intros a rest.
  - reflexivity.
  - cbn [Sycl.run_items length]. rewrite Hk.
    change (Sycl.run_items kernel items (f a :: rest)
            = Returns (Nat.iter (S (length items)) f a :: rest)).
    rewrite IH, Nat.iter_succ_r. reflexivity.
Qed.

Lemma submit_element_0 (f : float → float) kernel this :
  (∀ idx a rest, kernel idx (a :: rest) = Returns (f a :: rest)) →
  length (A this) = SIZE this →
  submit kernel this
  = Returns {| Q := Q this; SIZE := SIZE this;
               A := on_element_0 (Nat.iter (SIZE this) f) (A this) |}.
Proof.
  intros Hk Hlen. unfold submit, Sycl.parallel_for.
  destruct (A this) as [|a rest] eqn:HA.
  - simpl in Hlen. rewrite <- Hlen. reflexivity.
  - rewrite (run_items_element_0 f kernel Hk), length_seq. reflexivity.
Qed.

Lemma each_element_spec op x this :
  length (A this) = SIZE this →
  each_element op x this
  = Returns {| Q := Q this; SIZE := SIZE this;
               A := on_element_0 (Nat.iter (SIZE this) (compound_assign op x))
                      (A this) |}.
Proof.
  intros Hlen. destruct op; simpl;
    unfold add_each_element, subtract_each_element,
      multiply_each_element, divide_each_element;
    apply submit_element_0; auto.
Qed.

Lemma reset_spec P this :
  length (A this) = SIZE this →
  reset P this
  = Returns {| Q := Q this; SIZE := SIZE this;
               A := match Sycl.buffer_storage P with
                    | Sycl.shares_host =>
                        on_element_0 (Nat.iter (SIZE this) (λ _, 0%float))
                          (A this)
                    | Sycl.keeps_copy => A this
                    end |}.
Proof.
  intros Hlen. unfold reset, Sycl.parallel_for.
  destruct (A this) as [|a rest] eqn:HA.
  - simpl in Hlen. rewrite <- Hlen. cbn. by destruct (Sycl.buffer_storage P).
  - rewrite (run_items_element_0 (λ _, 0%float)), length_seq by done.
    reflexivity.
Qed.

Lemma length_on_element_0 f v : length (on_element_0 f v) = length v.
Proof. by destruct v. Qed.

Lemma tail_on_element_0 f v : tail (on_element_0 f v) = tail v.
Proof. by destruct v. Qed.

Lemma lookup_on_element_0_head f v :
  on_element_0 f v !! 0 = f <$> v !! 0.
Proof. by destruct v. Qed.

Lemma lookup_on_element_0_rest f v i :
  1 ≤ i → on_element_0 f v !! i = v !! i.
Proof. intros Hi. destruct v, i; simpl; auto; lia. Qed.

Lemma construct_consistent P SIZE_in :
  (0 ≤ SIZE_in)%Z →
  ∃ this, construct P SIZE_in = Returns this ∧ consistent this ∧
    SIZE this = Z.to_nat SIZE_in ∧
    A this = replicate (Z.to_nat SIZE_in) 0%float.
Proof.
  intros Hpos. unfold construct.
  destruct (Z.ltb_spec SIZE_in 0); [lia|].
  eexists; split; [reflexivity|]. unfold consistent; simpl.
  rewrite push_back_zeros_replicate; simpl.
  rewrite length_replicate. repeat split.
  destruct (Z.to_nat SIZE_in); simpl; [reflexivity|].
  by rewrite Nat.sub_0_r.
Qed.

Lemma invoke_consistent P c this :
  consistent this →
  ∃ this' e, invoke P c this = Returns (this', e) ∧ consistent this' ∧
    SIZE this' = SIZE this ∧ Q this' = Q this ∧
    length (A this') = length (A this).
Proof.
  intros [Hlen Htail].
  pose proof (each_element_spec plus_assign) as Hadd.
  pose proof (each_element_spec minus_assign) as Hsub.
  pose proof (each_element_spec times_assign) as Hmul.
  pose proof (each_element_spec divide_assign) as Hdiv.
  cbn [each_element] in Hadd, Hsub, Hmul, Hdiv.
  destruct c; cbn [invoke];
    rewrite ?Hadd, ?Hsub, ?Hmul, ?Hdiv, ?reset_spec by done;
    cbn [mbind outcome_bind].
  - exists this, None. repeat split; auto.
  - exists this, (select_gpu_device P this).2. split.
    + unfold select_gpu_device. by destruct (Sycl.gpu_selector_v P).
    + repeat split; auto.
  - eexists _, None. split; [reflexivity|]. unfold consistent; simpl.
    destruct (Sycl.buffer_storage P);
      rewrite ?length_on_element_0, ?tail_on_element_0; auto.
  - eexists _, None. split; [reflexivity|]. unfold consistent; simpl.
    rewrite length_on_element_0, tail_on_element_0; auto.
  - eexists _, None. split; [reflexivity|]. unfold consistent; simpl.
    rewrite length_on_element_0, tail_on_element_0; auto.
  - eexists _, None. split; [reflexivity|]. unfold consistent; simpl.
    rewrite length_on_element_0, tail_on_element_0; auto.
  - eexists _, None. split; [reflexivity|]. unfold consistent; simpl.
    rewrite length_on_element_0, tail_on_element_0; auto.
  - exists this, None. repeat split; auto.
Qed.

Lemma after_call_consistent P c this :
  consistent this →
  ∃ this', after_call P c this = Returns this' ∧ consistent this' ∧
    SIZE this' = SIZE this ∧ Q this' = Q this ∧
    length (A this') = length (A this).
Proof.
  intros Hc.
  destruct (invoke_consistent P c this Hc) as (this' & e & E & H).
  exists this'. unfold after_call. rewrite E. auto.
Qed.

Lemma run_invoke_consistent P calls : ∀ this,
  consistent this →
  ∃ this', Sycl.run_items (after_call P) calls this = Returns this' ∧
    consistent this' ∧ SIZE this' = SIZE this ∧ Q this' = Q this.
Proof.
  induction calls as [|c calls IH]; intros this Hc.
  - exists this; auto.
  - destruct (after_call_consistent P c this Hc)
      as (this1 & E1 & Hc1 & HS1 & HQ1 & _).
    destruct (IH this1 Hc1) as (this2 & E2 & Hc2 & HS2 & HQ2).
    exists this2. cbn [Sycl.run_items]. rewrite E1. cbn.
    repeat split; try apply Hc2; congruence.
Qed.

Lemma session_consistent P SIZE_in calls this :
  session P SIZE_in calls = Returns this →
  consistent this ∧ (0 ≤ SIZE_in)%Z ∧ SIZE this = Z.to_nat SIZE_in.
Proof.
  unfold session. intros E.
  destruct (Z.ltb_spec SIZE_in 0) as [Hneg|Hpos].
  - unfold construct in E.
    destruct (Z.ltb_spec SIZE_in 0); [discriminate E | lia].
  - destruct (construct_consistent P SIZE_in Hpos) as (v0 & E0 & Hc0 & HS0 & _).
    rewrite E0 in E. cbn in E.
    destruct (run_invoke_consistent P calls v0 Hc0) as (v1 & E1 & Hc1 & HS1 & _).
    rewrite E1 in E. injection E as <-. repeat split; try apply Hc1; congruence.
Qed.

(** One scalar call on a fresh vector of [S n] elements. *)
Lemma session_fresh_call P n c op x :
  (∀ this, after_call P c this = each_element op x this) →
  ∃ this,
    session P (Z.of_nat (S n)) [c] = Returns this ∧
    get_vector this
    = Nat.iter (S n) (compound_assign op x) 0%float :: replicate n 0%float.
Proof.
  intros Hc.
  destruct (construct_consistent P (Z.of_nat (S n))) as (v0 & E0 & [Hlen _] & HS & HA);
    [lia|].
  rewrite Nat2Z.id in HS, HA.
  eexists. unfold session. rewrite E0. cbn [mbind outcome_bind Sycl.run_items].
  rewrite Hc, each_element_spec by done. cbn [mbind outcome_bind].
  split; [reflexivity|]. unfold get_vector; cbn [A].
  rewrite HA, HS. reflexivity.
Qed.

Lemma after_scalar_call P op x this :
  after_call P
    match op with
    | plus_assign => call_add_each_element x
    | minus_assign => call_subtract_each_element x
    | times_assign => call_multiply_each_element x
    | divide_assign => call_divide_each_element x
    end this
  = each_element op x this.
Proof.
  unfold after_call. destruct op; cbn [invoke each_element];
    match goal with |- context [?m ≫= _] => by destruct m end.
Qed.

Lemma iter_divide_zero_by_zero n :
  Nat.iter (S n) (compound_assign divide_assign 0%float) 0%float = nan.
Proof.
  induction n as [|n IH]; [reflexivity|].
  rewrite Nat.iter_succ, IH. reflexivity.
Qed.

End Vector_lemmas.

Section Vector_claims.
Import Basic_Sycl_Vector.

(** C1 (at the input where it fails): on a fresh vector of size 2,
    [add_each_element 1.0] adds twice into element 0 and never reaches
    element 1, so [get_vector] is [2.0; 0.0], not [1.0; 1.0].  So it is at
    every size from 2 on and for every [x]: element 0 receives all the
    additions and the other elements stay 0.0. *)
Theorem add_each_element_on_fresh_vector (P : Sycl.platform) :
  (∃ this,
     session P 2 [call_add_each_element 1%float] = Returns this ∧
     get_vector this = [2%float; 0%float]) ∧
  ∀ (n : nat) (x : float), ∃ this,
    session P (Z.of_nat (S (S n))) [call_add_each_element x] = Returns this ∧
    get_vector this
    = Nat.iter (S (S n)) (λ a, a + x)%float 0%float
      :: replicate (S n) 0%float.
Proof.
  split; [eexists; split; reflexivity|].
  intros n x.
  exact (session_fresh_call P (S n) (call_add_each_element x) plus_assign x
           (after_scalar_call P plus_assign x)).
Qed.

Lemma consistent_shape this :
  consistent this →
  A this = [] ∧ SIZE this = 0 ∨
  ∃ a, A this = a :: replicate (SIZE this - 1) 0%float ∧ 1 ≤ SIZE this.
Proof.
  intros [Hlen Htail]. destruct (A this) as [|a rest] eqn:HA.
  - left. auto.
  - right. exists a. simpl in *. split; [congruence | lia].
Qed.

(** Where the buffer shares the vector's storage, only element 0 is
    written by [reset]: on a record whose second element is not 0.0 (no
    session produces one) that element stays. *)
Remark reset_writes_element_0_only q :
  reset cpu_only {| Q := q; SIZE := 2; A := [1%float; 2%float] |}
  = Returns {| Q := q; SIZE := 2; A := [0%float; 2%float] |}.
Proof. reflexivity. Qed.

(** C5 (at the input where it fails): [reset] assigns [A[0]] of the host
    vector, with a fixed index and beside a buffer it never uses.  Where
    the runtime keeps the buffer in a copy, the write-back puts the old
    contents back: after [add_each_element 1.0] on a vector of size 1,
    [reset] leaves [1.0], not [0.0], and on a vector of size 2 after
    [add_each_element 1.5] it leaves [3.0; 0.0].  However the runtime
    stores its buffers, no element past the first is assigned: on the data
    [1.0; 2.0] the second element is still 2.0 after [reset]. *)
Theorem reset_leaves_elements_unset :
  (∃ this,
     session cpu_copying 1 [call_add_each_element 1%float; call_reset]
     = Returns this ∧
     get_vector this = [1%float]) ∧
  (∃ this,
     session cpu_copying 2 [call_add_each_element 1.5%float; call_reset]
     = Returns this ∧
     get_vector this = [3%float; 0%float]) ∧
  ∀ P q, ∃ this,
    reset P {| Q := q; SIZE := 2; A := [1%float; 2%float] |} = Returns this ∧
    get_vector this !! 1 = Some 2%float.
Proof.
  split; [eexists; split; reflexivity|].
  split; [eexists; split; reflexivity|].
  intros P q. eexists. split; [reflexivity|].
  cbn. by destruct (Sycl.buffer_storage P).
Qed.

(** C6: an instance built with a valid size has that many elements, and so
    it stays: every session returns a state whose data has [SIZE_in]
    elements, and each further call, whichever it is and whether it
    returns or throws, leaves the length as it was. *)
Theorem length_never_changes P SIZE_in calls :
  (0 ≤ SIZE_in)%Z →
  ∃ this,
    session P SIZE_in calls = Returns this ∧
    length (get_vector this) = Z.to_nat SIZE_in ∧
    ∀ c, ∃ this' e,
      invoke P c this = Returns (this', e) ∧
      length (get_vector this') = length (get_vector this).
Proof.
  intros Hpos.
  destruct (construct_consistent P SIZE_in Hpos) as (v0 & E0 & Hc0 & HS0 & _).
  destruct (run_invoke_consistent P calls v0 Hc0) as (v1 & E1 & Hc1 & HS1 & _).
  exists v1. unfold session. rewrite E0. cbn. rewrite E1.
  split; [reflexivity|]. split.
  - unfold get_vector. destruct Hc1 as [-> _]. congruence.
  - intros c.
    destruct (invoke_consistent P c v1 Hc1)
      as (v2 & e & E2 & _ & _ & _ & Hl).
    exists v2, e. auto.
Qed.

Lemma length_never_changes_witness :
  ∃ this,
    session cpu_and_gpu 4
      [call_add_each_element 1%float; call_reset;
       call_divide_each_element 0%float; call_select_gpu_device;
       call_multiply_each_element 2%float; call_get_vector;
       call_subtract_each_element 3%float] = Returns this ∧
    length (get_vector this) = Z.to_nat 4 ∧
    ∀ c, ∃ this' e,
      invoke cpu_and_gpu c this = Returns (this', e) ∧
      length (get_vector this') = length (get_vector this).
Proof. apply (length_never_changes cpu_and_gpu 4). lia. Defined.





(** With two elements the two calls do not undo each other even where no
    single addition and subtraction loses anything: in the state
    [1.0; 0.0], with 2^52, each element alone would come back, and the
    calls leave [0.0; 0.0]. *)
Remark add_then_subtract_on_two_elements :
  ∃ this this'',
    session cpu_only 2 [call_add_each_element 0.5%float] = Returns this ∧
    get_vector this = [1%float; 0%float] ∧
    Forall (exactly_undone 4503599627370496%float) (get_vector this) ∧
    session cpu_only 2
      [call_add_each_element 0.5%float;
       call_add_each_element 4503599627370496%float;
       call_subtract_each_element 4503599627370496%float] = Returns this'' ∧
    get_vector this'' = [0%float; 0%float].
Proof.
  do 2 eexists. split; [reflexivity|]. split; [reflexivity|].
  split; [repeat constructor|]. split; reflexivity.
Qed.



(** C8: [select_gpu_device] leaves the instance as it was: the bound queue,
    the size and the data are those before the call, whether a GPU is found
    (the queue built for it is a local and is dropped) or not (the call
    throws). *)
Theorem select_gpu_device_frame (P : Sycl.platform) (this : t) :
  let this' := (select_gpu_device P this).1 in
  this' = this ∧ Q this' = Q this ∧ SIZE this' = SIZE this ∧
  get_vector this' = get_vector this ∧
  invoke P call_select_gpu_device this
  = Returns (this, (select_gpu_device P this).2).
Proof.
  unfold invoke, select_gpu_device.
  destruct (Sycl.gpu_selector_v P); simpl; auto.
Qed.

(** IEEE 754 division by +0: NaN from a zero or a NaN, the infinity of the
    same sign from anything else. *)
Lemma divide_by_zero_ieee (a : float) :
  Prim2SF (a / 0)%float
  = match Prim2SF a with
    | S754_zero _ | S754_nan => S754_nan
    | S754_infinity s | S754_finite s _ _ => S754_infinity s
    end.
Proof.
  rewrite FloatAxioms.div_spec. change (Prim2SF 0%float) with (S754_zero false).
  destruct (Prim2SF a) as [s|s| |s m e]; try reflexivity;
    destruct s; reflexivity.
Qed.

(** C9 (at the input where it fails): [divide_each_element 0.0] is not
    rejected, but on a fresh vector of size 2 it gives [NaN; 0.0]: element 1
    is never divided, and so it is at every size from 2 on.  Likewise after
    [add_each_element] of 1.0 or of -1.0 only element 0 becomes +infinity
    or -infinity. *)
Theorem divide_each_element_by_zero_on_fresh_vector (P : Sycl.platform) :
  (∃ this,
     session P 2 [call_divide_each_element 0%float] = Returns this ∧
     get_vector this = [nan; 0%float]) ∧
  (∀ n : nat, ∃ this,
     session P (Z.of_nat (S (S n))) [call_divide_each_element 0%float]
     = Returns this ∧
     get_vector this = nan :: replicate (S n) 0%float) ∧
  (∃ this,
     session P 2 [call_add_each_element 1%float;
                  call_divide_each_element 0%float] = Returns this ∧
     get_vector this = [infinity; 0%float]) ∧
  (∃ this,
     session P 2 [call_add_each_element (-1)%float;
                  call_divide_each_element 0%float] = Returns this ∧
     get_vector this = [neg_infinity; 0%float]).
Proof.
  split; [eexists; split; reflexivity|].
  split; [|split; eexists; split; reflexivity].
  intros n.
  destruct (session_fresh_call P (S n) (call_divide_each_element 0%float)
              divide_assign 0%float
              (after_scalar_call P divide_assign 0%float)) as (this & E & Hv).
  exists this. split; [exact E|].
  rewrite Hv, iter_divide_zero_by_zero. reflexivity.
Qed.

(** C10's example as stated fails on doubles: in the state [2^53; 0.0] (a
    fresh vector of size 2 after [add_each_element 2^52]),
    [add_each_element 1.0] adds 1.0 twice, each sum rounding back to 2^53,
    while the prior value plus SIZE * x is 2^53 + 2. *)
Lemma repeated_addition_is_not_a_product :
  ¬ (∀ P SIZE_in calls this x,
       session P SIZE_in calls = Returns this →
       ∃ this',
         add_each_element x this = Returns this' ∧
         get_vector this' !! 0
         = (λ a, a + double_of_size_t (SIZE this) * x)%float
             <$> get_vector this !! 0 ∧
         ∀ i, 1 ≤ i → get_vector this' !! i = get_vector this !! i).
Proof.
  intros H.
  destruct (H cpu_only 2%Z [call_add_each_element 4503599627370496%float]
              {| Q := {| Sycl.get_device := Sycl.default_selector_v cpu_only |};
                 SIZE := 2; A := [9007199254740992%float; 0%float] |}
              1%float eq_refl)
    as (this' & E1 & E2 & _).
  vm_compute in E1. injection E1 as <-.
  apply (f_equal (λ o, (default 0 o =? 9007199254740992)%float)) in E2.
  vm_compute in E2. discriminate E2.
Qed.

(** C10 (amended): in every state an instance can be in, each of the four
    scalar methods returns normally, leaves the queue and the size alone,
    leaves every element from index 1 on unchanged, and replaces element 0
    by the result of applying the method's compound assignment to it SIZE
    times in a row, each application rounded as a double operation. *)
Theorem scalar_methods_rewrite_element_0 P SIZE_in calls this x :
  session P SIZE_in calls = Returns this →
  rewrites_element_0 (λ a, a + x)%float (add_each_element x) this ∧
  rewrites_element_0 (λ a, a - x)%float (subtract_each_element x) this ∧
  rewrites_element_0 (λ a, a * x)%float (multiply_each_element x) this ∧
  rewrites_element_0 (λ a, a / x)%float (divide_each_element x) this.
Proof.
  intros Hs. destruct (session_consistent _ _ _ _ Hs) as ([Hlen _] & _ & _).
  assert (H : ∀ op,
    rewrites_element_0 (compound_assign op x) (each_element op x) this).
  { intros op. eexists. split; [by apply each_element_spec|].
    unfold get_vector; simpl. repeat split.
    - apply lookup_on_element_0_head.
    - intros i Hi. by apply lookup_on_element_0_rest. }
  split; [exact (H plus_assign)|].
  split; [exact (H minus_assign)|].
  split; [exact (H times_assign)|exact (H divide_assign)].
Qed.

Lemma scalar_methods_rewrite_element_0_witness :
  let this := {| Q := {| Sycl.get_device := Sycl.default_selector_v cpu_only |};
                 SIZE := 3; A := [6%float; 0%float; 0%float] |} in
  session cpu_only 3 [call_add_each_element 2%float] = Returns this ∧
  rewrites_element_0 (λ a, a + 2)%float (add_each_element 2%float) this ∧
  rewrites_element_0 (λ a, a - 2)%float (subtract_each_element 2%float) this ∧
  rewrites_element_0 (λ a, a * 2)%float (multiply_each_element 2%float) this ∧
  rewrites_element_0 (λ a, a / 2)%float (divide_each_element 2%float) this.
Proof.
  split; [reflexivity|].
  apply (scalar_methods_rewrite_element_0 cpu_only 3
           [call_add_each_element 2%float]).
  reflexivity.
Defined.

End Vector_claims.

(** * Properties of the matrix operations *)

Section Matrix_lemmas.
Import Matrix_Operations.
Context {Scalar_type : Type}.
Context (zero : Scalar_type) (plus : Scalar_type → Scalar_type → Scalar_type).

(** A loop that comes to its end has a bound within [int] and has run the
    body for every [k] below it. *)
Lemma for_loop_Returns {S : Type} N (body : nat → S → outcome S) s s' :
  for_loop N body s = Returns s' →
  (Z.of_nat N ≤ INT_MAX)%Z ∧ Sycl.run_items body (seq 0 N) s = Returns s'.
Proof.
  unfold for_loop. destruct (Z.leb_spec (Z.of_nat N) INT_MAX); [auto|].
  destruct (Sycl.run_items _ _ s); discriminate.
Qed.

Lemma for_loop_within_int {S : Type} N (body : nat → S → outcome S) s :
  (Z.of_nat N ≤ INT_MAX)%Z →
  for_loop N body s = Sycl.run_items body (seq 0 N) s.
Proof.
  intros H. unfold for_loop. destruct (Z.leb_spec (Z.of_nat N) INT_MAX);
    [reflexivity|lia].
Qed.

(** What holds of the store before a dispatch and is kept by every work
    item holds after it. *)
Lemma run_items_invariant {I S : Type} (Inv : S → Prop)
    (kernel : I → S → outcome S) :
  (∀ idx s s', Inv s → kernel idx s = Returns s' → Inv s') →
  ∀ items s s', Inv s → Sycl.run_items kernel items s = Returns s' → Inv s'.
Proof.
  intros Hk items; induction items as [|idx items IH]; intros s s' Hs E.
  - injection E as <-. exact Hs.
  - cbn [Sycl.run_items] in E. destruct (kernel idx s) as [s1|] eqn:E1.
    + eapply IH; [eapply Hk; eauto | exact E].
    + discriminate E.
Qed.

Lemma make_buffer_Returns (host : list Scalar_type) r b :
  make_buffer host r = Returns b →
  r.1 * r.2 ≤ length host ∧ range b = r ∧ cells b = take (r.1 * r.2) host.
Proof.
  unfold make_buffer. destruct (decide _); [|discriminate].
  intros E; injection E as <-. auto.
Qed.

Lemma make_buffer_take (host : list Scalar_type) r :
  r.1 * r.2 ≤ length host →
  make_buffer (take (r.1 * r.2) host) r = make_buffer host r.
Proof.
  intros Hle. unfold make_buffer.
  rewrite take_idemp, length_take_le by done.
  destruct (decide _), (decide _); try reflexivity; lia.
Qed.

Lemma make_buffer_short (host : list Scalar_type) r :
  length host < r.1 * r.2 →
  make_buffer host r = Undefined buffer_exceeds_storage.
Proof.
  intros Hlt. unfold make_buffer. destruct (decide _); [lia | reflexivity].
Qed.

Lemma write_same_size (b b' : @buffer Scalar_type) idx v :
  write b idx v = Returns b' →
  range b' = range b ∧ length (cells b') = length (cells b).
Proof.
  unfold write, linear_id, store.
  destruct (decide _); [|discriminate]. cbn.
  destruct (decide _); [|discriminate]. cbn.
  intros E; injection E as <-. simpl. by rewrite length_insert.
Qed.

Lemma write_back_length (b : @buffer Scalar_type) host :
  length (cells b) ≤ length host →
  length (write_back b host) = length host.
Proof.
  intros Hle. unfold write_back. rewrite length_app, length_drop. lia.
Qed.

(** Whatever the dimensions, a vector that [matrix_add] returns has [N]
    elements. *)
Lemma matrix_add_length Q A B M N C :
  matrix_add zero plus Q A B M N = Returns C → length C = N.
Proof.
  unfold matrix_add.
  destruct (make_buffer A (M, N)) as [A_buf|]; [cbn|discriminate].
  destruct (make_buffer B (M, N)) as [B_buf|]; [cbn|discriminate].
  destruct (make_buffer (replicate N zero) (M, N)) as [C_buf|] eqn:EC;
    [cbn|discriminate].
  apply make_buffer_Returns in EC as (Hle & _ & Hcells).
  destruct (Sycl.run_items _ _ C_buf) as [C_buf'|] eqn:Erun;
    [cbn|discriminate].
  intros E; injection E as <-.
  assert (Hlen : length (cells C_buf') = length (cells C_buf)).
  { revert Erun.
    apply (run_items_invariant
             (λ b, length (cells b) = length (cells C_buf))); [|done].
    intros idx s s' Hs Ek.
    destruct (read A_buf idx); [cbn in Ek|discriminate].
    destruct (read B_buf idx); [cbn in Ek|discriminate].
    apply write_same_size in Ek as [_ ->]. exact Hs. }
  rewrite write_back_length, length_replicate; [done|].
  rewrite Hlen, Hcells, length_take. lia.
Qed.

(** Likewise for [matrix_multiplication]. *)
Lemma matrix_multiplication_length Q A B M N K C :
  matrix_multiplication zero plus Q A B M N K = Returns C → length C = N.
Proof.
  unfold matrix_multiplication.
  destruct (make_buffer A (M, N)) as [A_buf|]; [cbn|discriminate].
  destruct (make_buffer B (N, K)) as [B_buf|]; [cbn|discriminate].
  destruct (make_buffer (replicate N zero) (M, K)) as [C_buf|] eqn:EC;
    [cbn|discriminate].
  apply make_buffer_Returns in EC as (Hle & _ & Hcells).
  destruct (Sycl.run_items _ _ C_buf) as [C_buf'|] eqn:Erun;
    [cbn|discriminate].
  intros E; injection E as <-.
  assert (Hlen : length (cells C_buf') = length (cells C_buf)).
  { revert Erun.
    apply (run_items_invariant
             (λ b, length (cells b) = length (cells C_buf))); [|done].
    intros idx s s' Hs [_ Hk]%for_loop_Returns. revert Hk.
    apply (run_items_invariant
             (λ b, length (cells b) = length (cells C_buf))); [|done].
    intros k c c' Hc Ek.
    destruct (read c _); [cbn in Ek|discriminate].
    destruct (read A_buf _); [cbn in Ek|discriminate].
    destruct (read B_buf _); [cbn in Ek|discriminate].
    apply write_same_size in Ek as [_ ->]. exact Hc. }
  rewrite write_back_length, length_replicate; [done|].
  rewrite Hlen, Hcells, length_take. lia.
Qed.

(** With two rows or more and a column, the buffer laid over the [N]
    cells of [C] always exceeds them. *)
Lemma matrix_add_exceeds_C Q A B M N :
  matrix_add zero plus Q A B (S (S M)) (S N)
  = Undefined buffer_exceeds_storage.
Proof.
  unfold matrix_add.
  destruct (make_buffer A _) as [A_buf|f] eqn:EA; cbn;
    [|unfold make_buffer in EA; destruct (decide _); congruence].
  destruct (make_buffer B _) as [B_buf|f] eqn:EB; cbn;
    [|unfold make_buffer in EB; destruct (decide _); congruence].
  rewrite make_buffer_short; [reflexivity|].
  simpl. rewrite length_replicate. lia.
Qed.

(** One row: the dispatch fills [C] from column [j0] on with the sums of
    the cells of [A] and [B]. *)
Lemma run_items_fill_row (a b : list Scalar_type) N :
  length a = N → length b = N →
  ∀ m j0 c, j0 + m = N → length c = N →
    Sycl.run_items
      (λ idx C_acc,
         x ← read {| range := (1, N); cells := a |} idx;
         y ← read {| range := (1, N); cells := b |} idx;
         write C_acc idx (plus x y))
      (seq j0 m ≫= λ j, [(0, j)])
      {| range := (1, N); cells := c |}
    = Returns {| range := (1, N);
                 cells := take j0 c
                          ++ zip_with plus (drop j0 a) (drop j0 b) |}.
Proof.
  intros Ha Hb m; induction m as [|m IH]; intros j0 c Hj Hc.
  - simpl. rewrite !drop_ge, take_ge by lia.
    by rewrite app_nil_r.
  - assert (Hj0 : j0 < N) by lia.
    destruct (lookup_lt_is_Some_2 a j0) as [x Hx]; [lia|].
    destruct (lookup_lt_is_Some_2 b j0) as [y Hy]; [lia|].
    cbn [seq mbind list_bind Sycl.run_items app].
    unfold read, write, linear_id, load, store; simpl.
    destruct (decide (0 < 1 ∧ j0 < N)); [|lia]. cbn.
    rewrite Hx, Hy. cbn.
    destruct (decide (j0 < length c)); [|lia]. cbn.
    specialize (IH (S j0) (<[j0:=plus x y]> c)).
    unfold read, write, linear_id, load, store in IH; simpl in IH.
    rewrite IH by (rewrite ?length_insert; lia).
    do 2 f_equal.
    rewrite (drop_S a x j0 Hx), (drop_S b y j0 Hy). simpl.
    rewrite (take_S_r _ _ (plus x y))
      by (apply list_lookup_insert_eq; lia).
    rewrite take_insert_ge, <- app_assoc by lia. reflexivity.
Qed.

(** [matrix_add] on one row of [N] columns returns the sums of the first
    [N] elements of its inputs, whatever follows them. *)
Lemma matrix_add_one_row Q A B N :
  N ≤ length A → N ≤ length B →
  matrix_add zero plus Q A B 1 N
  = Returns (zip_with plus (take N A) (take N B)).
Proof.
  intros HA HB. unfold matrix_add, make_buffer; simpl.
  rewrite Nat.add_0_r, length_replicate.
  destruct (decide (N ≤ length A)); [|lia].
  destruct (decide (N ≤ length B)); [|lia].
  destruct (decide (N ≤ N)); [|lia]. cbn.
  rewrite app_nil_r.
  rewrite (run_items_fill_row (take N A) (take N B) N)
    by (rewrite ?length_take, ?length_replicate; lia).
  cbn. unfold write_back; simpl.
  rewrite !drop_0, drop_ge, app_nil_r; [reflexivity|].
  rewrite length_replicate, length_zip_with_l_eq; rewrite !length_take; lia.
Qed.

Lemma read_at (b : @buffer Scalar_type) i j x :
  i < (range b).1 → j < (range b).2 →
  cells b !! (i * (range b).2 + j) = Some x →
  read b (i, j) = Returns x.
Proof.
  intros Hi Hj Hx. unfold read, linear_id, load. cbn [fst snd].
  destruct (decide _); [|lia]. cbn. by rewrite Hx.
Qed.

Lemma write_at (b : @buffer Scalar_type) i j v :
  i < (range b).1 → j < (range b).2 →
  i * (range b).2 + j < length (cells b) →
  write b (i, j) v
  = Returns {| range := range b;
               cells := <[i * (range b).2 + j := v]> (cells b) |}.
Proof.
  intros Hi Hj Hlt. unfold write, linear_id, store. cbn [fst snd].
  destruct (decide _); [|lia]. cbn.
  destruct (decide _); [|lia]. reflexivity.
Qed.

(** One row of [A] against one column of [B]: the single work item adds,
    for every [k], the sum of [A[0][k]] and [B[k][0]] onto the one cell. *)
Lemma run_items_accumulate (a b : list Scalar_type) N :
  length a = N → length b = N →
  ∀ m k0 c0, k0 + m = N →
    Sycl.run_items
      (λ k C_acc,
         c ← read C_acc (0, 0);
         x ← read {| range := (1, N); cells := a |} (0, k);
         y ← read {| range := (N, 1); cells := b |} (k, 0);
         write C_acc (0, 0) (plus c (plus x y)))
      (seq k0 m)
      {| range := (1, 1); cells := [c0] |}
    = Returns {| range := (1, 1);
                 cells := [foldl (λ c xy, plus c (plus xy.1 xy.2)) c0
                             (zip (drop k0 a) (drop k0 b))] |}.
Proof.
  intros Ha Hb m; induction m as [|m IH]; intros k0 c0 Hk.
  - simpl. by rewrite !drop_ge by lia.
  - destruct (lookup_lt_is_Some_2 a k0) as [x Hx]; [lia|].
    destruct (lookup_lt_is_Some_2 b k0) as [y Hy]; [lia|].
    cbn [seq Sycl.run_items].
    rewrite (read_at {| range := (1, 1); cells := [c0] |} 0 0 c0)
      by (simpl; done || lia).
    cbn [mbind outcome_bind].
    rewrite (read_at {| range := (1, N); cells := a |} 0 k0 x)
      by (simpl; done || lia).
    cbn [mbind outcome_bind].
    rewrite (read_at {| range := (N, 1); cells := b |} k0 0 y)
      by (simpl; rewrite ?Nat.mul_1_r, ?Nat.add_0_r; done || lia).
    cbn [mbind outcome_bind].
    rewrite write_at by (simpl; lia).
    cbn [mbind outcome_bind range cells fst snd].
    change (<[0 * 1 + 0:=plus c0 (plus x y)]> [c0])
      with [plus c0 (plus x y)].
    rewrite IH by lia.
    by rewrite (drop_S a x k0 Hx), (drop_S b y k0 Hy).
Qed.

Lemma matrix_multiplication_row_by_column Q A B N :
  1 ≤ N → (Z.of_nat N ≤ INT_MAX)%Z → N ≤ length A → N ≤ length B →
  matrix_multiplication zero plus Q A B 1 N 1
  = Returns (foldl (λ c xy, plus c (plus xy.1 xy.2)) zero
               (zip (take N A) (take N B))
             :: replicate (N - 1) zero).
Proof.
  intros HN Hint HA HB. unfold matrix_multiplication, make_buffer.
  cbn [fst snd]. rewrite !Nat.mul_1_l, !Nat.mul_1_r, length_replicate.
  destruct (decide (N ≤ length A)); [|lia].
  destruct (decide (N ≤ length B)); [|lia].
  destruct (decide (1 ≤ N)); [|lia].
  cbn [mbind outcome_bind]. unfold Sycl.parallel_for_2. cbn [fst snd].
  destruct N as [|N']; [lia|].
  change (take 1 (replicate (S N') zero)) with [zero].
  change (seq 0 1 ≫= λ i, seq 0 1 ≫= λ j, [(i, j)]) with [(0, 0)].
  cbn [Sycl.run_items fst snd]. rewrite for_loop_within_int by done.
  rewrite (run_items_accumulate (take (S N') A) (take (S N') B) (S N'))
    by (rewrite ?length_take; lia).
  cbn [mbind outcome_bind]. unfold write_back. cbn [cells length].
  rewrite !drop_0. simpl. by rewrite Nat.sub_0_r.
Qed.

End Matrix_lemmas.

Section Matrix_claims.

(** C2 (at inputs where it fails): on the 2x2 example the code lays a
    2x2 buffer over the [N] = 2 cells it allocated for [C], which is
    undefined, where the product is [19; 22; 43; 50]; where the call is
    defined it returns a vector of [N] elements whose first cells hold sums
    of sums: [5] for [2] times [3], and [24; 0; 0] for the row [1; 2; 3]
    times the column [5; 6; 7], where the product is [38]. *)
Theorem matrix_multiplication_is_not_the_product (Q : Sycl.queue) :
  Spec.multiply [1; 2; 3; 4]%float [5; 6; 7; 8]%float 2 2 2
  = inr [19; 22; 43; 50]%float ∧
  matrix_multiplication_double Q [1; 2; 3; 4]%float [5; 6; 7; 8]%float 2 2 2
  = Undefined buffer_exceeds_storage ∧
  Spec.multiply [2%float] [3%float] 1 1 1 = inr [6%float] ∧
  matrix_multiplication_double Q [2%float] [3%float] 1 1 1
  = Returns [5%float] ∧
  Spec.multiply [1; 2; 3]%float [5; 6; 7]%float 1 3 1 = inr [38%float] ∧
  matrix_multiplication_double Q [1; 2; 3]%float [5; 6; 7]%float 1 3 1
  = Returns [24; 0; 0]%float.
Proof. repeat split; reflexivity. Qed.

(** C3 (at the input where it fails): on the 2x2 example the code lays a
    2x2 buffer over the [N] = 2 cells it allocated for [C], which is
    undefined, where the sum is [6; 8; 10; 12]; so it is with any two rows
    or more; and with no row at all it returns [N] zeros, not the empty
    matrix. *)
Theorem matrix_add_allocates_one_row (Q : Sycl.queue) :
  Spec.add [1; 2; 3; 4]%float [5; 6; 7; 8]%float 2 2
  = inr [6; 8; 10; 12]%float ∧
  matrix_add_double Q [1; 2; 3; 4]%float [5; 6; 7; 8]%float 2 2
  = Undefined buffer_exceeds_storage ∧
  (∀ A B M N,
     matrix_add_double Q A B (S (S M)) (S N)
     = Undefined buffer_exceeds_storage) ∧
  Spec.add [] [] 0 2 = inr [] ∧
  matrix_add_double Q [] [] 0 2 = Returns [0; 0]%float.
Proof.
  repeat split; try reflexivity.
  intros A B M N. apply matrix_add_exceeds_C.
Qed.

(** C4 as stated fails: the code checks no length.  A one-row addition
    whose first input has three elements for two declared columns returns
    [6; 8], and a 1x1 multiplication whose first input has two elements
    returns [5]; the specification's operations reject both. *)
Lemma mismatched_lengths_are_accepted :
  ¬ (∀ Q A B M N,
       length A ≠ M * N ∨ length B ≠ M * N →
       ∀ C, matrix_add_double Q A B M N ≠ Returns C) ∧
  ¬ (∀ Q A B M N K,
       length A ≠ M * N ∨ length B ≠ N * K →
       ∀ C, matrix_multiplication_double Q A B M N K ≠ Returns C) ∧
  Spec.add [1; 2; 3]%float [5; 6]%float 1 2 = inl Spec.DimensionMismatch ∧
  Spec.multiply [2; 9]%float [3%float] 1 1 1 = inl Spec.DimensionMismatch.
Proof.
  pose (Q := {| Sycl.get_device := Sycl.default_selector_v cpu_only |}).
  repeat split; try reflexivity.
  - intros H.
    apply (H Q [1; 2; 3]%float [5; 6]%float 1 2) with (C := [6; 8]%float);
      [left; simpl; lia | reflexivity].
  - intros H.
    apply (H Q [2; 9]%float [3%float] 1 1 1) with (C := [5%float]);
      [left; simpl; lia | reflexivity].
Qed.

(** C4 (amended): neither operation checks the lengths of its inputs.
    Inputs that have at least the declared number of elements are used up
    to that number and the rest is ignored: the outcome is that of the call
    on the truncated inputs.  So an addition of one row gives the sums of
    the first [N] elements of its inputs. *)
Theorem longer_inputs_are_truncated {Scalar_type : Type} (zero : Scalar_type)
    (plus : Scalar_type → Scalar_type → Scalar_type)
    (Q : Sycl.queue) (A B B' : list Scalar_type) (M N K : nat) :
  M * N ≤ length A → M * N ≤ length B → N * K ≤ length B' →
  Matrix_Operations.matrix_add zero plus Q A B M N
  = Matrix_Operations.matrix_add zero plus Q
      (take (M * N) A) (take (M * N) B) M N ∧
  Matrix_Operations.matrix_multiplication zero plus Q A B' M N K
  = Matrix_Operations.matrix_multiplication zero plus Q
      (take (M * N) A) (take (N * K) B') M N K ∧
  (M = 1 →
   Matrix_Operations.matrix_add zero plus Q A B M N
   = Returns (zip_with plus (take N A) (take N B))).
Proof.
  intros HA HB HB'. repeat split.
  - pose proof (make_buffer_take A (M, N) HA) as EA.
    pose proof (make_buffer_take B (M, N) HB) as EB. simpl in EA, EB.
    unfold Matrix_Operations.matrix_add. by rewrite EA, EB.
  - pose proof (make_buffer_take A (M, N) HA) as EA.
    pose proof (make_buffer_take B' (N, K) HB') as EB. simpl in EA, EB.
    unfold Matrix_Operations.matrix_multiplication. by rewrite EA, EB.
  - intros ->. apply matrix_add_one_row; lia.
Qed.

Lemma longer_inputs_are_truncated_witness :
  let Q := {| Sycl.get_device := Sycl.default_selector_v cpu_only |} in
  matrix_add_double Q [1; 2; 3]%float [5; 6; 7; 8]%float 1 2
  = matrix_add_double Q [1; 2]%float [5; 6]%float 1 2 ∧
  matrix_multiplication_double Q [1; 2; 3]%float [5; 6; 9]%float 1 2 1
  = matrix_multiplication_double Q [1; 2]%float [5; 6]%float 1 2 1 ∧
  matrix_add_double Q [1; 2; 3]%float [5; 6; 7; 8]%float 1 2
  = Returns [6; 8]%float.
Proof.
  intros Q.
  destruct (longer_inputs_are_truncated 0%float PrimFloat.add Q
              [1; 2; 3]%float [5; 6; 7; 8]%float [5; 6; 9]%float 1 2 1)
    as (Hadd & Hmul & Hrow); [simpl; lia | simpl; lia | simpl; lia |].
  split; [exact Hadd|]. split; [exact Hmul|]. exact (Hrow eq_refl).
Defined.

End Matrix_claims.

(** * Further properties of the vector class *)

Section Vector_further.
Import Basic_Sycl_Vector.

Lemma run_items_app {I S : Type} (kernel : I → S → outcome S) l1 l2 : ∀ s,
  Sycl.run_items kernel (l1 ++ l2) s
  = s' ← Sycl.run_items kernel l1 s; Sycl.run_items kernel l2 s'.
Proof.
  induction l1 as [|idx l1 IH]; intros s; [reflexivity|].
  cbn [app Sycl.run_items]. destruct (kernel idx s) as [s1|f]; cbn; auto.
Qed.

(** What a session leaves behind: a consistent instance of the size asked
    for, still bound to the queue it was built with. *)
Lemma session_state P SIZE_in calls this :
  session P SIZE_in calls = Returns this →
  (0 ≤ SIZE_in)%Z ∧ consistent this ∧ SIZE this = Z.to_nat SIZE_in ∧
  Q this = {| Sycl.get_device := Sycl.default_selector_v P |}.
Proof.
  intros E. destruct (session_consistent _ _ _ _ E) as (Hc & Hpos & HS).
  repeat split; try apply Hc; auto.
  unfold session in E.
  destruct (construct_consistent P SIZE_in Hpos) as (v0 & E0 & Hc0 & _ & _).
  assert (HQ0 : Q v0 = {| Sycl.get_device := Sycl.default_selector_v P |}).
  { unfold construct in E0. destruct (SIZE_in <? 0)%Z; [discriminate|].
    by injection E0 as <-. }
  rewrite E0 in E. cbn in E.
  destruct (run_invoke_consistent P calls v0 Hc0) as (v1 & E1 & _ & _ & HQ1).
  rewrite E1 in E. injection E as <-. congruence.
Qed.

Lemma reset_consistent P this :
  consistent this →
  reset P this
  = Returns {| Q := Q this; SIZE := SIZE this;
               A := match Sycl.buffer_storage P with
                    | Sycl.shares_host => replicate (SIZE this) 0%float
                    | Sycl.keeps_copy => A this
                    end |}.
Proof.
  intros Hc. pose proof Hc as [Hlen _]. rewrite reset_spec by done.
  do 2 f_equal. destruct (Sycl.buffer_storage P); [|reflexivity].
  destruct (consistent_shape this Hc) as [[HA H0]|(a & HA & Hpos)];
    rewrite HA.
  - by rewrite H0.
  - destruct (SIZE this) as [|n]; [lia|]. simpl. by rewrite Nat.sub_0_r.
Qed.

(** X1: no method ever writes past element 0: in every state an instance can
    be in, each element from index 1 on still holds the 0.0 the constructor
    put there. *)
Theorem elements_past_0_stay_zero P SIZE_in calls this i :
  session P SIZE_in calls = Returns this →
  1 ≤ i → i < length (get_vector this) →
  get_vector this !! i = Some 0%float.
Proof.
  intros E Hi Hlt. destruct (session_state _ _ _ _ E) as (_ & Hc & _ & _).
  unfold get_vector in *.
  destruct (consistent_shape this Hc) as [[HA _]|(a & HA & Hpos)];
    rewrite HA in *; simpl in Hlt; [lia|].
  destruct i as [|i]; [lia|]. simpl.
  apply lookup_replicate_2. rewrite length_replicate in Hlt. lia.
Qed.

Lemma elements_past_0_stay_zero_witness :
  ∃ this,
    session cpu_only 3
      [call_add_each_element 1%float; call_multiply_each_element 5%float;
       call_divide_each_element 0%float] = Returns this ∧
    get_vector this !! 2 = Some 0%float.
Proof.
  eexists. split; [reflexivity|].
  apply (elements_past_0_stay_zero cpu_only 3
           [call_add_each_element 1%float; call_multiply_each_element 5%float;
            call_divide_each_element 0%float]);
    [reflexivity | lia | simpl; lia].
Defined.

(** X2: the bound device never changes: after any session, calls to
    [select_gpu_device] included, the instance is bound to the queue it was
    built with, and [print_device] prints the name and the vendor of that
    default device. *)
Theorem bound_device_is_the_default P SIZE_in calls this :
  session P SIZE_in calls = Returns this →
  Q this = {| Sycl.get_device := Sycl.default_selector_v P |} ∧
  print_device this
  = ("DEVICE: " ++ Sycl.name (Sycl.default_selector_v P) ++ endl ++
     "VENDOR: " ++ Sycl.vendor (Sycl.default_selector_v P) ++ endl ++
     endl)%string.
Proof.
  intros E. destruct (session_state _ _ _ _ E) as (_ & _ & _ & HQ).
  split; [exact HQ|]. unfold print_device. by rewrite HQ.
Qed.

Lemma bound_device_is_the_default_witness :
  ∃ this,
    session cpu_and_gpu 2
      [call_select_gpu_device; call_add_each_element 1%float;
       call_select_gpu_device] = Returns this ∧
    Sycl.gpu_selector_v cpu_and_gpu
    = Some {| Sycl.name := "gpu"; Sycl.vendor := "card" |} ∧
    print_device this = ("DEVICE: cpu" ++ endl ++ "VENDOR: host" ++ endl ++ endl)%string.
Proof.
  eexists. split; [reflexivity|]. split; [reflexivity|].
  apply (bound_device_is_the_default cpu_and_gpu 2
           [call_select_gpu_device; call_add_each_element 1%float;
            call_select_gpu_device]).
  reflexivity.
Defined.

(** X3: an instance of size 0 is inert: whatever is called on it, in
    whatever order, no work item runs, so nothing is accessed and no call
    is undefined; every call leaves the empty instance the constructor
    built; and the one call that does not return normally is
    [select_gpu_device], which throws exactly when the host has no GPU. *)
Theorem empty_vector_is_inert (P : Sycl.platform) (calls : list call) :
  let empty := {| Q := {| Sycl.get_device := Sycl.default_selector_v P |};
                  SIZE := 0; A := [] |} in
  construct P 0 = Returns empty ∧
  session P 0 calls = Returns empty ∧
  ∀ c, ∃ e,
    invoke P c empty = Returns (empty, e) ∧
    (e = Some Sycl.no_matching_device ↔
     c = call_select_gpu_device ∧ Sycl.gpu_selector_v P = None).
Proof.
  intros empty.
  assert (Hinvoke : ∀ c, ∃ e,
    invoke P c empty = Returns (empty, e) ∧
    (e = Some Sycl.no_matching_device ↔
     c = call_select_gpu_device ∧ Sycl.gpu_selector_v P = None)).
  { intros c. destruct c; cbn [invoke].
    - exists None. split; [reflexivity|]. split; [|intros [? _]]; discriminate.
    - unfold select_gpu_device. destruct (Sycl.gpu_selector_v P) as [d|].
      + exists None. split; [reflexivity|].
        split; [|intros [_ ?]]; discriminate.
      + exists (Some Sycl.no_matching_device). split; [reflexivity|].
        split; auto.
    - exists None. split.
      + unfold reset. cbn. by destruct (Sycl.buffer_storage P).
      + split; [|intros [? _]]; discriminate.
    - exists None. split; [reflexivity|]. split; [|intros [? _]]; discriminate.
    - exists None. split; [reflexivity|]. split; [|intros [? _]]; discriminate.
    - exists None. split; [reflexivity|]. split; [|intros [? _]]; discriminate.
    - exists None. split; [reflexivity|]. split; [|intros [? _]]; discriminate.
    - exists None. split; [reflexivity|]. split; [|intros [? _]]; discriminate. }
  assert (Hc0 : construct P 0 = Returns empty) by reflexivity.
  split; [exact Hc0|]. split; [|exact Hinvoke].
  unfold session. rewrite Hc0. clearbody empty. clear Hc0.
  cbn [mbind outcome_bind].
  induction calls as [|c calls IH]; [reflexivity|].
  assert (Ha : after_call P c empty = Returns empty)
    by (unfold after_call; destruct (Hinvoke c) as (e & -> & _); reflexivity).
  cbn [Sycl.run_items]. rewrite Ha. exact IH.
Qed.

(** X4: on an instance of size 1 (or 0) the scalar methods do what their
    documentation says: each of them applies its operation once to every
    element. *)
Theorem single_element_methods_reach_every_element
    P SIZE_in calls this x :
  (SIZE_in ≤ 1)%Z →
  session P SIZE_in calls = Returns this →
  (∃ this', add_each_element x this = Returns this' ∧
     get_vector this' = (λ a, a + x)%float <$> get_vector this) ∧
  (∃ this', subtract_each_element x this = Returns this' ∧
     get_vector this' = (λ a, a - x)%float <$> get_vector this) ∧
  (∃ this', multiply_each_element x this = Returns this' ∧
     get_vector this' = (λ a, a * x)%float <$> get_vector this) ∧
  (∃ this', divide_each_element x this = Returns this' ∧
     get_vector this' = (λ a, a / x)%float <$> get_vector this).
Proof.
  intros Hle E.
  destruct (session_state _ _ _ _ E) as (Hpos & Hc & HS & _).
  pose proof Hc as [Hlen Htail].
  assert (H : ∀ op, ∃ this', each_element op x this = Returns this' ∧
            get_vector this' = compound_assign op x <$> get_vector this).
  { intros op. eexists. split; [by apply each_element_spec|].
    unfold get_vector; simpl.
    destruct (A this) as [|a [|b rest]]; simpl in *; [done| |lia].
    by rewrite <- Hlen. }
  split; [exact (H plus_assign)|]. split; [exact (H minus_assign)|].
  split; [exact (H times_assign)|exact (H divide_assign)].
Qed.

Lemma single_element_methods_reach_every_element_witness :
  let this := {| Q := {| Sycl.get_device := Sycl.default_selector_v cpu_only |};
                 SIZE := 1; A := [6%float] |} in
  session cpu_only 1 [call_add_each_element 6%float] = Returns this ∧
  (∃ this', add_each_element 2%float this = Returns this' ∧
     get_vector this' = [8%float]) ∧
  (∃ this', divide_each_element 2%float this = Returns this' ∧
     get_vector this' = [3%float]).
Proof.
  intros this. split; [reflexivity|].
  destruct (single_element_methods_reach_every_element cpu_only 1
              [call_add_each_element 6%float] this 2%float)
    as (Hadd & _ & _ & Hdiv); [lia | reflexivity |].
  split; [exact Hadd | exact Hdiv].
Defined.

(** X5: what [reset] leaves depends on where the runtime keeps its
    buffers.  Where the buffer shares the vector's storage, [reset] forgets
    the history: the instance is again exactly the one the constructor
    built.  Where the buffer is a copy, [reset] changes nothing: the
    session ends as if the call had not been made. *)
Theorem reset_by_buffer_storage P SIZE_in calls calls' :
  (0 ≤ SIZE_in)%Z →
  session P SIZE_in (calls ++ call_reset :: calls')
  = match Sycl.buffer_storage P with
    | Sycl.shares_host => session P SIZE_in calls'
    | Sycl.keeps_copy => session P SIZE_in (calls ++ calls')
    end.
Proof.
  intros Hpos.
  destruct (construct_consistent P SIZE_in Hpos) as (v0 & E0 & Hc0 & HS0 & HA0).
  assert (HQ0 : Q v0 = {| Sycl.get_device := Sycl.default_selector_v P |}).
  { unfold construct in E0. destruct (SIZE_in <? 0)%Z; [discriminate|].
    by injection E0 as <-. }
  destruct (run_invoke_consistent P calls v0 Hc0) as (v1 & E1 & Hc1 & HS1 & HQ1).
  unfold session. rewrite E0. cbn [mbind outcome_bind].
  assert (Hr : after_call P call_reset v1
               = Returns {| Q := Q v1; SIZE := SIZE v1;
                            A := match Sycl.buffer_storage P with
                                 | Sycl.shares_host =>
                                     replicate (SIZE v1) 0%float
                                 | Sycl.keeps_copy => A v1
                                 end |})
    by (unfold after_call; cbn [invoke];
        by rewrite (reset_consistent P v1 Hc1)).
  rewrite !run_items_app, E1.
  cbn [mbind outcome_bind Sycl.run_items]. rewrite Hr.
  cbn [mbind outcome_bind].
  destruct (Sycl.buffer_storage P).
  - f_equal. destruct v0 as [q n v]; simpl in *. congruence.
  - f_equal. by destruct v1.
Qed.

Lemma reset_by_buffer_storage_witness :
  session cpu_only 3
    ([call_add_each_element 1%float; call_divide_each_element 0%float]
     ++ call_reset :: [call_add_each_element 2%float])
  = session cpu_only 3 [call_add_each_element 2%float] ∧
  (∃ this,
     session cpu_only 3 [call_add_each_element 2%float] = Returns this ∧
     get_vector this = [6%float; 0%float; 0%float]) ∧
  session cpu_copying 3
    ([call_add_each_element 1%float] ++ call_reset
     :: [call_add_each_element 2%float])
  = session cpu_copying 3
      ([call_add_each_element 1%float] ++ [call_add_each_element 2%float]) ∧
  (∃ this,
     session cpu_copying 3
       ([call_add_each_element 1%float] ++ [call_add_each_element 2%float])
     = Returns this ∧
     get_vector this = [9%float; 0%float; 0%float]).
Proof.
  split; [|split; [|split]].
  - apply (reset_by_buffer_storage cpu_only 3). lia.
  - eexists. split; reflexivity.
  - apply (reset_by_buffer_storage cpu_copying 3). lia.
  - eexists. split; reflexivity.
Defined.

Lemma nan_absorbs op x : compound_assign op x nan = nan.
Proof.
  apply Prim2SF_inj. destruct op; unfold compound_assign.
  - rewrite FloatAxioms.add_spec. reflexivity.
  - rewrite FloatAxioms.sub_spec. reflexivity.
  - rewrite FloatAxioms.mul_spec. reflexivity.
  - rewrite FloatAxioms.div_spec. reflexivity.
Qed.

Lemma iter_fixed_point (f : float → float) a n :
  f a = a → Nat.iter n f a = a.
Proof. intros Hf. induction n as [|n IH]; simpl; congruence. Qed.

(** X6: NaN sticks: once element 0 is NaN, each of the four scalar methods,
    with whatever scalar, returns normally and leaves the instance exactly
    as it is. *)
Theorem nan_is_sticky P SIZE_in calls this x :
  session P SIZE_in calls = Returns this →
  get_vector this !! 0 = Some nan →
  add_each_element x this = Returns this ∧
  subtract_each_element x this = Returns this ∧
  multiply_each_element x this = Returns this ∧
  divide_each_element x this = Returns this.
Proof.
  intros E Hnan. destruct (session_state _ _ _ _ E) as (_ & [Hlen _] & _ & _).
  assert (H : ∀ op, each_element op x this = Returns this).
  { intros op. rewrite each_element_spec by done.
    destruct this as [q n v]; unfold get_vector in Hnan; simpl in *.
    do 2 f_equal. destruct v as [|a rest]; [done|]. simpl in *.
    injection Hnan as ->. f_equal.
    apply iter_fixed_point, nan_absorbs. }
  split; [exact (H plus_assign)|]. split; [exact (H minus_assign)|].
  split; [exact (H times_assign)|exact (H divide_assign)].
Qed.

Lemma nan_is_sticky_witness :
  let this := {| Q := {| Sycl.get_device := Sycl.default_selector_v cpu_only |};
                 SIZE := 2; A := [nan; 0%float] |} in
  session cpu_only 2 [call_divide_each_element 0%float] = Returns this ∧
  add_each_element 1%float this = Returns this ∧
  subtract_each_element 1%float this = Returns this ∧
  multiply_each_element 0%float this = Returns this ∧
  divide_each_element 2%float this = Returns this.
Proof.
  intros this. split; [reflexivity|].
  split; [|split; [|split]].
  - apply (nan_is_sticky cpu_only 2 [call_divide_each_element 0%float]
             this 1%float); reflexivity.
  - apply (nan_is_sticky cpu_only 2 [call_divide_each_element 0%float]
             this 1%float); reflexivity.
  - apply (nan_is_sticky cpu_only 2 [call_divide_each_element 0%float]
             this 0%float); reflexivity.
  - apply (nan_is_sticky cpu_only 2 [call_divide_each_element 0%float]
             this 2%float); reflexivity.
Defined.

(** What IEEE 754 division by +0 gives, as a double. *)
Lemma divide_by_zero_value (a : float) :
  (a / 0)%float
  = match Prim2SF a with
    | S754_zero _ | S754_nan => nan
    | S754_infinity s | S754_finite s _ _ =>
        if s then neg_infinity else infinity
    end.
Proof.
  apply Prim2SF_inj. rewrite divide_by_zero_ieee.
  destruct (Prim2SF a) as [s|s| |s m e]; try reflexivity;
    destruct s; reflexivity.
Qed.

(** X7: [divide_each_element 0.0] never fails and settles element 0 by the
    IEEE rules: NaN when it was a zero or NaN, otherwise the infinity of
    its sign, however many work items divide it again. *)
Theorem divide_by_zero_on_element_0 P SIZE_in calls this a :
  session P SIZE_in calls = Returns this →
  get_vector this !! 0 = Some a →
  ∃ this',
    divide_each_element 0%float this = Returns this' ∧
    get_vector this' !! 0
    = Some match Prim2SF a with
           | S754_zero _ | S754_nan => nan
           | S754_infinity s | S754_finite s _ _ =>
               if s then neg_infinity else infinity
           end.
Proof.
  intros E Ha. destruct (session_state _ _ _ _ E) as (_ & [Hlen _] & _ & _).
  eexists. split; [exact (each_element_spec divide_assign _ this Hlen)|].
  unfold get_vector in *; simpl.
  rewrite lookup_on_element_0_head, Ha. simpl. f_equal.
  destruct (SIZE this) as [|n] eqn:HS.
  { destruct (A this); simpl in *; [done|lia]. }
  rewrite Nat.iter_succ_r. unfold compound_assign at 2.
  rewrite divide_by_zero_value.
  apply iter_fixed_point. unfold compound_assign.
  destruct (Prim2SF a) as [s|s| |s m e]; try reflexivity;
    destruct s; reflexivity.
Qed.

Lemma divide_by_zero_on_element_0_witness :
  ∃ this',
    divide_each_element 0%float
      {| Q := {| Sycl.get_device := Sycl.default_selector_v cpu_only |};
         SIZE := 3; A := [(-6)%float; 0%float; 0%float] |}
    = Returns this' ∧
    get_vector this' !! 0 = Some neg_infinity.
Proof.
  destruct (divide_by_zero_on_element_0 cpu_only 3
              [call_subtract_each_element 2%float]
              {| Q := {| Sycl.get_device := Sycl.default_selector_v cpu_only |};
                 SIZE := 3; A := [(-6)%float; 0%float; 0%float] |}
              (-6)%float eq_refl eq_refl) as (this' & E1 & E2).
  exists this'. split; [exact E1 | exact E2].
Defined.

Lemma subtract_is_add_opposite (a x : float) :
  (a - x)%float = (a + - x)%float.
Proof.
  apply Prim2SF_inj.
  rewrite FloatAxioms.sub_spec, FloatAxioms.add_spec, FloatAxioms.opp_spec.
  destruct (Prim2SF a) as [sa|sa| |sa ma ea],
           (Prim2SF x) as [sx|sx| |sx mx ex];
    try reflexivity;
    try (destruct sa, sx; reflexivity).
Qed.

(** X8: [subtract_each_element x] is [add_each_element (-x)]: on every
    state an instance can be in the two calls return, and leave the same
    values.  The values are those of the embedding, where NaN is one
    value: where [x] or a result is NaN, this says that both calls leave a
    NaN, and nothing of its sign or payload. *)
Theorem subtract_is_add_of_opposite P SIZE_in calls this x :
  session P SIZE_in calls = Returns this →
  ∃ this',
    subtract_each_element x this = Returns this' ∧
    add_each_element (- x)%float this = Returns this'.
Proof.
  intros E. destruct (session_state _ _ _ _ E) as (_ & [Hlen _] & _ & _).
  pose proof (each_element_spec minus_assign x this Hlen) as Hsub.
  pose proof (each_element_spec plus_assign (- x)%float this Hlen) as Hadd.
  cbn [each_element] in Hsub, Hadd.
  eexists. split; [exact Hsub|]. rewrite Hadd.
  do 2 f_equal. destruct (A this) as [|a rest]; [reflexivity|]. simpl.
  f_equal. clear. induction (SIZE this) as [|n IH]; [reflexivity|].
  simpl. rewrite IH. symmetry. apply subtract_is_add_opposite.
Qed.

Lemma subtract_is_add_of_opposite_witness :
  let this := {| Q := {| Sycl.get_device := Sycl.default_selector_v cpu_only |};
                 SIZE := 2; A := [2%float; 0%float] |} in
  session cpu_only 2 [call_add_each_element 1%float] = Returns this ∧
  ∃ this',
    subtract_each_element 3%float this = Returns this' ∧
    add_each_element (- 3)%float this = Returns this' ∧
    get_vector this' = [(-4)%float; 0%float].
Proof.
  intros this. split; [reflexivity|].
  destruct (subtract_is_add_of_opposite cpu_only 2
              [call_add_each_element 1%float] this 3%float eq_refl)
    as (this' & Esub & Eadd).
  exists this'. split; [exact Esub|]. split; [exact Eadd|].
  injection Esub as <-. reflexivity.
Defined.

End Vector_further.

(** * Further properties of the matrix operations *)

Section Matrix_further.
Import Matrix_Operations.
Context {Scalar_type : Type}.
Context (zero : Scalar_type) (plus : Scalar_type → Scalar_type → Scalar_type).

Lemma make_buffer_fits (host : list Scalar_type) r :
  r.1 * r.2 ≤ length host →
  make_buffer host r
  = Returns {| range := r; cells := take (r.1 * r.2) host |}.
Proof. intros Hle. unfold make_buffer. by rewrite decide_True. Qed.

(** A range without columns, or without rows, holds no work item. *)
Lemma no_columns_no_items R : ∀ i0,
  (i ← seq i0 R; j ← seq 0 0; [(i, j)]) = ([] : list (nat * nat)).
Proof. induction R as [|R IH]; intros i0; simpl; auto. Qed.

(** The outcome of [matrix_add] in closed form. *)
Lemma matrix_add_outcome Q A B M N :
  matrix_add zero plus Q A B M N
  = if decide (M * N ≤ length A ∧ M * N ≤ length B ∧ M * N ≤ N)
    then Returns (zip_with plus (take (M * N) A) (take (M * N) B)
                  ++ replicate (N - M * N) zero)
    else Undefined buffer_exceeds_storage.
Proof.
  destruct (decide _) as [(HA & HB & HC)|Hn].
  - assert (HM : M = 0 ∨ M = 1 ∨ N = 0) by nia.
    destruct HM as [->|[->| ->]].
    + unfold matrix_add. rewrite !make_buffer_fits by (simpl; lia).
      cbn. unfold write_back. simpl. by rewrite Nat.sub_0_r.
    + rewrite matrix_add_one_row by lia.
      rewrite Nat.mul_1_l, Nat.sub_diag. simpl. by rewrite app_nil_r.
    + unfold matrix_add.
      rewrite !make_buffer_fits by (simpl; rewrite ?Nat.mul_0_r; lia).
      cbn [mbind outcome_bind]. unfold Sycl.parallel_for_2. cbn [fst snd].
      rewrite no_columns_no_items. cbn. unfold write_back. simpl.
      rewrite Nat.mul_0_r. reflexivity.
  - unfold matrix_add.
    destruct (decide (M * N ≤ length A)) as [HA|HA];
      [|by rewrite (make_buffer_short A) by (simpl; lia)].
    rewrite (make_buffer_fits A) by done. cbn [mbind outcome_bind].
    destruct (decide (M * N ≤ length B)) as [HB|HB];
      [|by rewrite (make_buffer_short B) by (simpl; lia)].
    rewrite (make_buffer_fits B) by done. cbn [mbind outcome_bind].
    rewrite make_buffer_short; [reflexivity|].
    simpl. rewrite length_replicate. lia.
Qed.

(** The loop over [k] of one work item whose cell is inside the buffer. *)
Lemma for_loop_accumulates (a b : list Scalar_type) M N K i j :
  length a = M * N → length b = N * K → j < M → i < K →
  ∀ m k0 cs, length cs = M * K → k0 + m ≤ N →
    Sycl.run_items
      (λ k C_acc,
         c ← read C_acc (j, i);
         x ← read {| range := (M, N); cells := a |} (j, k);
         y ← read {| range := (N, K); cells := b |} (k, i);
         write C_acc (j, i) (plus c (plus x y)))
      (seq k0 m) {| range := (M, K); cells := cs |}
    = Returns
        {| range := (M, K);
           cells :=
             <[j * K + i :=
                 foldl (λ acc k,
                          plus acc (plus (entry zero a N j k)
                                         (entry zero b K k i)))
                   (default zero (cs !! (j * K + i))) (seq k0 m)]> cs |}.
Proof.
  intros Ha Hb Hj Hi m; induction m as [|m IH]; intros k0 cs Hc Hk.
  - destruct (lookup_lt_is_Some_2 cs (j * K + i)) as [cp Hcp]; [nia|].
    simpl. rewrite Hcp. simpl. by rewrite list_insert_id.
  - destruct (lookup_lt_is_Some_2 cs (j * K + i)) as [cp Hcp]; [nia|].
    destruct (lookup_lt_is_Some_2 a (j * N + k0)) as [x Hx]; [nia|].
    destruct (lookup_lt_is_Some_2 b (k0 * K + i)) as [y Hy]; [nia|].
    cbn [seq Sycl.run_items].
    rewrite (read_at {| range := (M, K); cells := cs |} j i cp)
      by (simpl; done || lia).
    cbn [mbind outcome_bind].
    rewrite (read_at {| range := (M, N); cells := a |} j k0 x)
      by (simpl; done || lia).
    cbn [mbind outcome_bind].
    rewrite (read_at {| range := (N, K); cells := b |} k0 i y)
      by (simpl; done || lia).
    cbn [mbind outcome_bind].
    rewrite write_at by (simpl; nia).
    cbn [mbind outcome_bind range cells fst snd].
    rewrite IH by (rewrite ?length_insert; lia).
    rewrite list_lookup_insert_eq, list_insert_insert_eq by nia.
    assert (Ex : entry zero a N j k0 = x) by (unfold entry; by rewrite Hx).
    assert (Ey : entry zero b K k0 i = y) by (unfold entry; by rewrite Hy).
    rewrite Hcp. cbn [default foldl from_option]. by rewrite Ex, Ey.
Qed.

Lemma row_major_injective M r c j i :
  c < M → i < M → r * M + c = j * M + i → r = j ∧ c = i.
Proof. intros Hc Hi E. destruct (Nat.lt_trichotomy r j) as [|[|]]; nia. Qed.

(** The ids of a two-dimensional range: each once, and no other. *)
Lemma range_items R C :
  NoDup (i ← seq 0 R; j ← seq 0 C; [(i, j)]) ∧
  ∀ idx : nat * nat,
    idx ∈ (i ← seq 0 R; j ← seq 0 C; [(i, j)]) ↔ idx.1 < R ∧ idx.2 < C.
Proof.
  split.
  - apply NoDup_bind; [| |apply NoDup_seq].
    + intros i1 i2 idx _ _ (j1 & H1 & _)%list_elem_of_bind
        (j2 & H2 & _)%list_elem_of_bind.
      apply list_elem_of_singleton in H1, H2. congruence.
    + intros i _. apply NoDup_bind; [| |apply NoDup_seq].
      * intros j1 j2 idx _ _ H1%list_elem_of_singleton
          H2%list_elem_of_singleton. congruence.
      * intros j _. apply NoDup_singleton.
  - intros [i j]. simpl. split.
    + intros (i' & (j' & H & Hj%elem_of_seq)%list_elem_of_bind
                & Hi%elem_of_seq)%list_elem_of_bind.
      apply list_elem_of_singleton in H. injection H as -> ->. lia.
    + intros [Hi Hj]. apply list_elem_of_bind. exists i. split.
      * apply list_elem_of_bind. exists j. split.
        -- by apply list_elem_of_singleton.
        -- apply elem_of_seq. lia.
      * apply elem_of_seq. lia.
Qed.

(** A dispatch over ids of a square range: each work item [(i, j)] fills
    the cell of row [j] and column [i], which no other item touches. *)
Lemma run_items_square (a b : list Scalar_type) M N :
  length a = M * N → length b = N * M → (Z.of_nat N ≤ INT_MAX)%Z →
  ∀ L done cs,
    NoDup L →
    (∀ idx : nat * nat, idx ∈ L → idx.1 < M ∧ idx.2 < M ∧ idx ∉ done) →
    length cs = M * M →
    (∀ r c, r < M → c < M →
       cs !! (r * M + c)
       = Some (if decide ((c, r) ∈ done)
               then accumulated zero plus a b N M r c else zero)) →
    ∃ cs',
      Sycl.run_items
        (λ idx C_acc,
           let i := idx.1 in
           let j := idx.2 in
           for_loop N (λ k C_acc,
             c ← read C_acc (j, i);
             x ← read {| range := (M, N); cells := a |} (j, k);
             y ← read {| range := (N, M); cells := b |} (k, i);
             write C_acc (j, i) (plus c (plus x y))) C_acc)
        L {| range := (M, M); cells := cs |}
      = Returns {| range := (M, M); cells := cs' |} ∧
      length cs' = M * M ∧
      ∀ r c, r < M → c < M →
        cs' !! (r * M + c)
        = Some (if decide ((c, r) ∈ L ++ done)
                then accumulated zero plus a b N M r c else zero).
Proof.
  intros Ha Hb Hint L; induction L as [|[i j] L IH];
    intros done cs Hnd HL Hlen Hcs.
  - exists cs. auto.
  - apply NoDup_cons in Hnd as [Hnotin Hnd].
    destruct (HL (i, j)) as (Hi & Hj & Hfresh); [left|]. simpl in Hi, Hj.
    cbn [Sycl.run_items fst snd]. rewrite for_loop_within_int by done.
    rewrite (for_loop_accumulates a b M N M i j Ha Hb Hj Hi N 0 cs Hlen)
      by lia.
    cbn [mbind outcome_bind].
    rewrite (Hcs j i Hj Hi), decide_False by done. cbn [default from_option].
    change (foldl _ zero (seq 0 N)) with (accumulated zero plus a b N M j i).
    destruct (IH ((i, j) :: done)
                (<[j * M + i := accumulated zero plus a b N M j i]> cs))
      as (cs' & E & Hlen' & Hcs'); auto.
    + intros idx Hin. destruct (HL idx) as (? & ? & ?); [by right|].
      repeat split; auto. intros [->|?]%elem_of_cons; done.
    + by rewrite length_insert.
    + intros r c Hr Hc. destruct (decide ((c, r) = (i, j))) as [Heq|Hne].
      * injection Heq as -> ->.
        rewrite list_lookup_insert_eq by nia.
        rewrite decide_True by left. reflexivity.
      * rewrite list_lookup_insert_ne, (Hcs r c Hr Hc).
        -- f_equal. apply decide_ext. rewrite elem_of_cons. tauto.
        -- intros E. destruct (row_major_injective M j i r c) as [-> ->];
             auto.
    + exists cs'. split; [exact E|]. split; [exact Hlen'|].
      intros r c Hr Hc. rewrite (Hcs' r c Hr Hc). f_equal.
      apply decide_ext.
      repeat (rewrite elem_of_app || rewrite elem_of_cons). tauto.
Qed.

Lemma foldl_ext_in {X Y : Type} (f g : X → Y → X) l : ∀ x,
  (∀ acc k, k ∈ l → f acc k = g acc k) → foldl f x l = foldl g x l.
Proof.
  induction l as [|k l IH]; intros x Hfg; [reflexivity|]. simpl.
  rewrite Hfg by left. apply IH. intros acc k' Hk'. apply Hfg. by right.
Qed.

(** Only the declared part of the inputs is read. *)
Lemma accumulated_take A B M N K r c :
  r < M → c < K →
  accumulated zero plus (take (M * N) A) (take (N * K) B) N K r c
  = accumulated zero plus A B N K r c.
Proof.
  intros Hr Hc. unfold accumulated. apply foldl_ext_in.
  intros acc k Hk%elem_of_seq. unfold entry.
  by rewrite !lookup_take_lt by nia.
Qed.

(** [matrix_multiplication] with a square output whose [M * M] cells fit in
    the [N] cells of [C], and a loop bound within [int]. *)
Lemma matrix_multiplication_square_cells Q A B M N :
  M * N ≤ length A → N * M ≤ length B → M * M ≤ N →
  (Z.of_nat N ≤ INT_MAX)%Z →
  ∃ C,
    matrix_multiplication zero plus Q A B M N M = Returns C ∧
    length C = N ∧
    (∀ r c, r < M → c < M →
       C !! (r * M + c) = Some (accumulated zero plus A B N M r c)) ∧
    (∀ p, M * M ≤ p → p < N → C !! p = Some zero).
Proof.
  intros HA HB HC Hint. unfold matrix_multiplication.
  rewrite (make_buffer_fits A (M, N)), (make_buffer_fits B (N, M)),
    (make_buffer_fits (replicate N zero) (M, M))
    by (simpl; rewrite ?length_replicate; lia).
  cbn [mbind outcome_bind fst snd]. unfold Sycl.parallel_for_2. cbn [fst snd].
  destruct (range_items M M) as [Hnd Hin].
  destruct (run_items_square (take (M * N) A) (take (N * M) B) M N
              ltac:(by rewrite length_take_le)
              ltac:(by rewrite length_take_le) Hint
              (i ← seq 0 M; j ← seq 0 M; [(i, j)]) []
              (take (M * M) (replicate N zero)) Hnd)
    as (cs' & E & Hlen & Hcs).
  { intros idx Hidx. apply Hin in Hidx as [? ?].
    repeat split; auto. apply not_elem_of_nil. }
  { rewrite length_take_le; [done|]. by rewrite length_replicate. }
  { intros r c Hr Hc. rewrite decide_False by apply not_elem_of_nil.
    rewrite lookup_take_lt by nia. apply lookup_replicate_2. nia. }
  match goal with
  | |- context [Sycl.run_items ?k ?l ?s] =>
      replace (Sycl.run_items k l s)
        with (Returns {| range := (M, M); cells := cs' |})
        by (symmetry; exact E)
  end.
  cbn [mbind outcome_bind]. eexists. split; [reflexivity|].
  unfold write_back. cbn [cells]. rewrite Hlen. repeat split.
  - rewrite length_app, length_drop, length_replicate. lia.
  - intros r c Hr Hc. rewrite lookup_app_l by nia.
    rewrite (Hcs r c Hr Hc), decide_True, accumulated_take; auto.
    rewrite app_nil_r. apply Hin. simpl. lia.
  - intros p Hp HpN. rewrite lookup_app_r by lia.
    rewrite lookup_drop. apply lookup_replicate_2. lia.
Qed.

(** A dispatch that returns has run every one of its work items to its
    end. *)
Lemma run_items_all_return {I S : Type} (Inv : S → Prop)
    (kernel : I → S → outcome S) :
  (∀ idx s s', Inv s → kernel idx s = Returns s' → Inv s') →
  ∀ L s s', Inv s → Sycl.run_items kernel L s = Returns s' →
  ∀ idx, idx ∈ L → ∃ s1 s2, Inv s1 ∧ kernel idx s1 = Returns s2.
Proof.
  intros Hk L; induction L as [|idx0 L IH]; intros s s' Hs E idx Hin.
  - by apply elem_of_nil in Hin.
  - cbn [Sycl.run_items] in E. destruct (kernel idx0 s) as [s1|] eqn:E1;
      [|discriminate E].
    apply elem_of_cons in Hin as [->|Hin]; [by exists s, s1|].
    eapply (IH s1 s'); eauto.
Qed.

Lemma matrix_multiplication_kernel_range (A_buf B_buf : @buffer Scalar_type)
    N (idx : nat * nat) s s' :
  for_loop N (λ k C_acc,
    c ← read C_acc (idx.2, idx.1);
    x ← read A_buf (idx.2, k);
    y ← read B_buf (k, idx.1);
    write C_acc (idx.2, idx.1) (plus c (plus x y))) s = Returns s' →
  range s' = range s.
Proof.
  intros [_ Hk]%for_loop_Returns. revert Hk.
  apply (run_items_invariant (λ b, range b = range s)); [|done].
  intros k c c' Hc Ek.
  destruct (read c _); [cbn in Ek|discriminate].
  destruct (read A_buf _); [cbn in Ek|discriminate].
  destruct (read B_buf _); [cbn in Ek|discriminate].
  apply write_same_size in Ek as [-> _]. exact Hc.
Qed.

(** A work item whose cell lies outside the buffer of [C] faults as soon
    as its loop starts. *)
Lemma matrix_multiplication_kernel_faults (A_buf B_buf : @buffer Scalar_type)
    M N K (idx : nat * nat) s s' :
  range s = (M, K) → 1 ≤ N → ¬ (idx.2 < M ∧ idx.1 < K) →
  for_loop N (λ k C_acc,
    c ← read C_acc (idx.2, idx.1);
    x ← read A_buf (idx.2, k);
    y ← read B_buf (k, idx.1);
    write C_acc (idx.2, idx.1) (plus c (plus x y))) s ≠ Returns s'.
Proof.
  intros Hr HN Hout [_ E]%for_loop_Returns. destruct N as [|N]; [lia|].
  assert (Hread : read s (idx.2, idx.1) = Undefined index_out_of_range).
  { unfold read, linear_id. rewrite Hr. cbn [fst snd].
    by rewrite decide_False. }
  cbn [seq Sycl.run_items] in E. rewrite Hread in E. discriminate.
Qed.

(** With rows and columns to compute, [matrix_multiplication] needs a square
    output: otherwise some work item indexes [C] outside its range. *)
Lemma matrix_multiplication_not_square Q A B M N K C :
  1 ≤ M → 1 ≤ K → M ≠ K →
  matrix_multiplication zero plus Q A B M N K ≠ Returns C.
Proof.
  intros HM HK Hne E. unfold matrix_multiplication in E.
  destruct (make_buffer A (M, N)) as [A_buf|]; [|discriminate].
  destruct (make_buffer B (N, K)) as [B_buf|]; [|discriminate].
  destruct (make_buffer (replicate N zero) (M, K)) as [C_buf|] eqn:EC;
    [|discriminate].
  apply make_buffer_Returns in EC as (Hfit & Hrange & _).
  simpl in Hfit. rewrite length_replicate in Hfit.
  cbn [mbind outcome_bind] in E. unfold Sycl.parallel_for_2 in E.
  cbn [fst snd] in E.
  destruct (Sycl.run_items _ _ C_buf) as [C_buf'|] eqn:Erun; [|discriminate].
  destruct (range_items M K) as [_ Hin].
  assert (Hbad : ∃ idx : nat * nat,
            (idx.1 < M ∧ idx.2 < K) ∧ ¬ (idx.2 < M ∧ idx.1 < K)).
  { destruct (decide (M < K)).
    - exists (0, M). simpl. lia.
    - exists (K, 0). simpl. lia. }
  destruct Hbad as (idx & Hidx%Hin & Hout).
  match type of Erun with
  | Sycl.run_items ?k ?L ?s0 = _ =>
      assert (Hpres : ∀ idx0 s1 s2, range s1 = (M, K) →
                k idx0 s1 = Returns s2 → range s2 = (M, K))
        by (intros idx0 s1 s2 Hs Hk; cbv beta in Hk;
            rewrite (matrix_multiplication_kernel_range _ _ _ _ _ _ Hk);
            exact Hs);
      destruct (run_items_all_return (λ b, range b = (M, K)) k Hpres
                  L s0 C_buf' Hrange Erun idx Hidx) as (s1 & s2 & Hs1 & Hk)
  end.
  cbv beta in Hk.
  eapply matrix_multiplication_kernel_faults; [exact Hs1| |exact Hout|exact Hk].
  nia.
Qed.

(** With rows and columns to compute, a [matrix_multiplication] that
    returns has run the loop over [k] to its end, with a bound within
    [int]. *)
Lemma matrix_multiplication_loop_bound Q A B M N K C :
  1 ≤ M → 1 ≤ K →
  matrix_multiplication zero plus Q A B M N K = Returns C →
  (Z.of_nat N ≤ INT_MAX)%Z.
Proof.
  intros HM HK E. unfold matrix_multiplication in E.
  destruct (make_buffer A (M, N)) as [A_buf|]; [|discriminate].
  destruct (make_buffer B (N, K)) as [B_buf|]; [|discriminate].
  destruct (make_buffer (replicate N zero) (M, K)) as [C_buf|];
    [|discriminate].
  cbn [mbind outcome_bind] in E. unfold Sycl.parallel_for_2 in E.
  cbn [fst snd] in E.
  destruct (Sycl.run_items _ _ C_buf) as [C_buf'|] eqn:Erun; [|discriminate].
  destruct (range_items M K) as [_ Hin].
  assert (Hidx : (0, 0) ∈ (i ← seq 0 M; j ← seq 0 K; [(i, j)]))
    by (apply Hin; simpl; lia).
  destruct (run_items_all_return (λ _, True) _
              ltac:(done) _ _ _ I Erun (0, 0) Hidx) as (s1 & s2 & _ & Hk).
  cbv beta in Hk. by apply for_loop_Returns in Hk as [? _].
Qed.

(** With no row or no column to compute, no work item runs and [C] is
    returned as it was allocated. *)
Lemma matrix_multiplication_no_items Q A B M N K :
  M = 0 ∨ K = 0 → M * N ≤ length A → N * K ≤ length B →
  matrix_multiplication zero plus Q A B M N K = Returns (replicate N zero).
Proof.
  intros H0 HA HB. unfold matrix_multiplication.
  rewrite (make_buffer_fits A (M, N)), (make_buffer_fits B (N, K)),
    (make_buffer_fits (replicate N zero) (M, K))
    by (simpl; rewrite ?length_replicate; nia).
  cbn [mbind outcome_bind fst snd]. unfold Sycl.parallel_for_2. cbn [fst snd].
  assert (HMK : M * K = 0) by nia. rewrite HMK.
  destruct H0 as [-> | ->].
  - cbn. unfold write_back. reflexivity.
  - rewrite no_columns_no_items. cbn. unfold write_back. reflexivity.
Qed.

Lemma zip_with_commutes (l k : list Scalar_type) :
  (∀ x y, plus x y = plus y x) → zip_with plus l k = zip_with plus k l.
Proof.
  intros Hcomm. revert k; induction l as [|x l IH]; intros [|y k];
    simpl; auto. by rewrite Hcomm, IH.
Qed.

Lemma matrix_add_symmetric Q A B M N :
  (∀ x y, plus x y = plus y x) →
  matrix_add zero plus Q A B M N = matrix_add zero plus Q B A M N.
Proof.
  intros Hcomm. rewrite !matrix_add_outcome.
  rewrite (zip_with_commutes _ _ Hcomm).
  apply decide_ext. tauto.
Qed.

(** X9: the outcome of [matrix_add] in closed form.  The call is defined
    exactly when [M * N] elements are there in [A], in [B] and in the [N]
    cells allocated for [C] (so for at most one row, or no column); it then
    returns [N] elements: the sums of the first [M * N] elements of [A] and
    [B], followed by untouched zeros.  Otherwise a buffer exceeds its
    vector. *)
Theorem matrix_add_closed_form Q A B M N :
  matrix_add zero plus Q A B M N
  = if decide (M * N ≤ length A ∧ M * N ≤ length B ∧ M * N ≤ N)
    then Returns (zip_with plus (take (M * N) A) (take (M * N) B)
                  ++ replicate (N - M * N) zero)
    else Undefined buffer_exceeds_storage.
Proof. apply matrix_add_outcome. Qed.

(** X11: [matrix_multiplication] returns exactly when its three buffers fit
    their vectors ([M * N] elements in [A], [N * K] in [B], [M * K] within
    the [N] cells of [C]) and either the output has no cell at all, or it
    is square and the bound [N] of the loop over [k] is within [int]; with
    rows and columns to compute and [M ≠ K] it never returns. *)
Theorem matrix_multiplication_returns_iff Q A B M N K :
  (∃ C, matrix_multiplication zero plus Q A B M N K = Returns C) ↔
  M * N ≤ length A ∧ N * K ≤ length B ∧ M * K ≤ N ∧
  (M = 0 ∨ K = 0 ∨ (M = K ∧ (Z.of_nat N ≤ INT_MAX)%Z)).
Proof.
  split.
  - intros [C E].
    assert (Hfit : M * N ≤ length A ∧ N * K ≤ length B ∧ M * K ≤ N).
    { unfold matrix_multiplication in E.
      destruct (make_buffer A (M, N)) as [A_buf|] eqn:EA; [|discriminate].
      destruct (make_buffer B (N, K)) as [B_buf|] eqn:EB; [|discriminate].
      destruct (make_buffer (replicate N zero) (M, K)) as [C_buf|] eqn:EC;
        [|discriminate].
      apply make_buffer_Returns in EA as (HA & _ & _).
      apply make_buffer_Returns in EB as (HB & _ & _).
      apply make_buffer_Returns in EC as (HC & _ & _).
      simpl in HA, HB, HC. rewrite length_replicate in HC. auto. }
    destruct Hfit as (HA & HB & HC). repeat split; auto.
    destruct (decide (M = 0)) as [|HM]; [auto|].
    destruct (decide (K = 0)) as [|HK]; [auto|].
    right; right. split.
    + destruct (decide (M = K)) as [|Hne]; [done|].
      exfalso. eapply (matrix_multiplication_not_square Q A B M N K C);
        eauto; lia.
    + eapply (matrix_multiplication_loop_bound Q A B M N K C); eauto; lia.
  - intros (HA & HB & HC & [-> | [-> | [<- Hint]]]).
    + eexists. apply matrix_multiplication_no_items; auto.
    + eexists. apply matrix_multiplication_no_items; auto.
    + destruct (matrix_multiplication_square_cells Q A B M N HA HB HC Hint)
        as (C & E & _). eauto.
Qed.

(** X12: when the output is square, the buffers fit and the bound [N] of
    the loop over [k] is within [int], [matrix_multiplication] returns [N]
    elements: cell [(r, c)] of the [M x M] output holds the sums
    [A[r][k] + B[k][c]] added up over [k] (no product is taken), and the
    cells after the output stay zero. *)
Theorem matrix_multiplication_square_result Q A B M N :
  M * N ≤ length A → N * M ≤ length B → M * M ≤ N →
  (Z.of_nat N ≤ INT_MAX)%Z →
  ∃ C,
    matrix_multiplication zero plus Q A B M N M = Returns C ∧
    length C = N ∧
    (∀ r c, r < M → c < M →
       C !! (r * M + c) = Some (accumulated zero plus A B N M r c)) ∧
    (∀ p, M * M ≤ p → p < N → C !! p = Some zero).
Proof. apply matrix_multiplication_square_cells. Qed.

(** X13: with no row or no column to compute and inputs that fit,
    [matrix_multiplication] runs no work item and returns the [N] zeros it
    allocated, not an empty matrix. *)
Theorem matrix_multiplication_without_cells Q A B M N K :
  M = 0 ∨ K = 0 → M * N ≤ length A → N * K ≤ length B →
  matrix_multiplication zero plus Q A B M N K = Returns (replicate N zero).
Proof. apply matrix_multiplication_no_items. Qed.

End Matrix_further.

Section Matrix_further_double.

Lemma double_add_commutes (x y : float) : (x + y)%float = (y + x)%float.
Proof.
  apply Prim2SF_inj. rewrite !FloatAxioms.add_spec.
  destruct (Prim2SF x) as [sx|sx| |sx mx ex],
           (Prim2SF y) as [sy|sy| |sy my ey];
    try reflexivity; try (destruct sx, sy; reflexivity).
  unfold SF64add, SFadd. by rewrite (Z.min_comm ey ex), Z.add_comm.
Qed.

(** X10: [matrix_add] on doubles does not depend on the order of its two
    inputs, in what it returns as in where it is undefined. *)
Theorem matrix_add_double_commutes Q A B M N :
  matrix_add_double Q A B M N = matrix_add_double Q B A M N.
Proof.
  apply matrix_add_symmetric. exact double_add_commutes.
Qed.

Lemma matrix_multiplication_returns_iff_witness :
  let Q := {| Sycl.get_device := Sycl.default_selector_v cpu_only |} in
  (∃ C, matrix_multiplication_double Q
          [1; 2; 3; 4; 5; 6; 7; 8]%float [5; 6; 7; 8; 9; 10; 11; 12]%float
          2 4 2 = Returns C) ∧
  ¬ (∃ C, matrix_multiplication_double Q
            [1; 2; 3; 4]%float [5; 6; 7; 8]%float 1 4 2 = Returns C).
Proof.
  intros Q. split.
  - apply (matrix_multiplication_returns_iff 0%float PrimFloat.add).
    unfold INT_MAX. simpl. lia.
  - intros H.
    apply (matrix_multiplication_returns_iff 0%float PrimFloat.add) in H.
    lia.
Defined.

Lemma matrix_multiplication_square_result_witness :
  let Q := {| Sycl.get_device := Sycl.default_selector_v cpu_only |} in
  matrix_multiplication_double Q
    [1; 2; 3; 4; 5; 6; 7; 8]%float [5; 6; 7; 8; 9; 10; 11; 12]%float 2 4 2
  = Returns [42; 46; 58; 62]%float ∧
  ∃ C,
    matrix_multiplication_double Q
      [1; 2; 3; 4; 5; 6; 7; 8]%float [5; 6; 7; 8; 9; 10; 11; 12]%float 2 4 2
    = Returns C ∧
    length C = 4 ∧
    (∀ r c, r < 2 → c < 2 →
       C !! (r * 2 + c)
       = Some (accumulated 0%float PrimFloat.add
                 [1; 2; 3; 4; 5; 6; 7; 8]%float
                 [5; 6; 7; 8; 9; 10; 11; 12]%float 4 2 r c)) ∧
    (∀ p, 2 * 2 ≤ p → p < 4 → C !! p = Some 0%float).
Proof.
  intros Q. split; [reflexivity|].
  apply (matrix_multiplication_square_result 0%float PrimFloat.add);
    unfold INT_MAX; simpl; lia.
Defined.

Lemma matrix_multiplication_without_cells_witness :
  let Q := {| Sycl.get_device := Sycl.default_selector_v cpu_only |} in
  matrix_multiplication_double Q [] [1; 2; 3; 4; 5; 6]%float 0 3 2
  = Returns [0; 0; 0]%float.
Proof.
  intros Q.
  apply (matrix_multiplication_without_cells 0%float PrimFloat.add);
    [left; reflexivity | simpl; lia | simpl; lia].
Defined.

End Matrix_further_double.
